(** * Metric accumulators of FastPoseCNN (lib/metrics.py)

    A shallow embedding of the six [pl.metrics.Metric] subclasses of
    [lib/metrics.py] and the properties of their [update] and [compute]
    methods.

    Modelling conventions.
    - A float tensor scalar is a [float]: an exact rational, an infinity or
      NaN.  Finite arithmetic is exact (rounding and overflow of the
      hardware format are abstracted, zero carries no sign); the special
      values follow IEEE 754, so that [0/0] and the mean of an empty tensor
      are NaN as in torch.
    - A one-dimensional float tensor of per-instance scores is a [list Q].
    - The integer counters [correct] and [total] are [Z]; the 64-bit range
      of the torch integer tensor is not represented.
    - A match record (a Python [dict] with string keys) is a
      [gmap string (tensor * tensor)]: the value stored under a field is
      the stacked pair indexed by [[0]] (ground truth) and [[1]]
      (prediction) in the source.
    - [gpu_tensor_funcs] is not part of the sources: its three functions are
      section variables, and they may raise.
    - A method is a computation in the monad [M]: it reads and writes
      [self], and either returns or raises, leaving [self] as it was at the
      moment of the raise. *)

From Stdlib Require Import ZArith QArith Qabs Qminmax Lia Lqa.
From stdpp Require Import gmap strings list.

(** ** Float scalars *)

Module Float.

Local Open Scope Q_scope.

Inductive float : Type :=
| Fin (q : Q)
| PInf
| NInf
| NaN.

Definition of_Z (z : Z) : float := Fin (inject_Z z).

Definition add (a b : float) : float :=
  match a, b with
  | NaN, _ | _, NaN => NaN
  | Fin x, Fin y => Fin (x + y)
  | PInf, NInf | NInf, PInf => NaN
  | PInf, _ | _, PInf => PInf
  | NInf, _ | _, NInf => NInf
  end.

Definition mul (a b : float) : float :=
  match a, b with
  | NaN, _ | _, NaN => NaN
  | Fin x, Fin y => Fin (x * y)
  | PInf, Fin y | Fin y, PInf =>
      match y ?= 0 with Eq => NaN | Gt => PInf | Lt => NInf end
  | NInf, Fin y | Fin y, NInf =>
      match y ?= 0 with Eq => NaN | Gt => NInf | Lt => PInf end
  | PInf, PInf | NInf, NInf => PInf
  | PInf, NInf | NInf, PInf => NaN
  end.

Definition div (a b : float) : float :=
  match a, b with
  | NaN, _ | _, NaN => NaN
  | Fin x, Fin y =>
      match y ?= 0 with
      | Eq => match x ?= 0 with Eq => NaN | Gt => PInf | Lt => NInf end
      | _ => Fin (x / y)
      end
  | Fin _, (PInf | NInf) => Fin 0
  | PInf, Fin y => match y ?= 0 with Lt => NInf | _ => PInf end
  | NInf, Fin y => match y ?= 0 with Lt => PInf | _ => NInf end
  | (PInf | NInf), (PInf | NInf) => NaN
  end.

(** Two scalars denote the same value (rationals up to [Qeq]). *)
Definition same (a b : float) : Prop :=
  match a, b with
  | Fin x, Fin y => x == y
  | PInf, PInf | NInf, NInf | NaN, NaN => True
  | _, _ => False
  end.

(** [x < y] and [x > y] on scores, as booleans. *)
Definition ltb (x y : Q) : bool :=
  match x ?= y with Lt => true | _ => false end.

Definition gtb (x y : Q) : bool :=
  match x ?= y with Gt => true | _ => false end.

End Float.

Export Float.

(** ** Torch operations on score tensors *)

(** [torch.sum(t.int())] for a boolean tensor [t]. *)
Definition torch_sum_int (t : list bool) : Z :=
  Z.of_nat (length (filter (fun b => b = true) t)).

(** [t.shape[0]]. *)
Definition shape0 {A} (t : list A) : Z := Z.of_nat (length t).

Definition Qsum (t : list Q) : Q := foldr Qplus 0%Q t.

(** [torch.mean(t)]: NaN on the empty tensor. *)
Definition torch_mean (t : list Q) : float :=
  div (Fin (Qsum t)) (of_Z (shape0 t)).

(** ** Exceptions and the method monad *)

Inductive exn : Type :=
| KeyError (key : string)     (* a dict lookup of an absent key *)
| CatEmptyList                (* RuntimeError of torch.cat on an empty list,
                                 the EmptyScoreSet of the specification *)
| ScorerRaised.               (* any exception out of gpu_tensor_funcs *)

Inductive result (A : Type) : Type :=
| Ok (a : A)
| Err (e : exn).
Arguments Ok {A} a.
Arguments Err {A} e.

Inductive outcome (S A : Type) : Type :=
| Returned (a : A) (s : S)
| Raised (e : exn) (s : S).
Arguments Returned {S A} a s.
Arguments Raised {S A} e s.

Definition M (S A : Type) : Type := S -> outcome S A.

Definition ret {S A} (a : A) : M S A := fun s => Returned a s.

Definition bind {S A B} (m : M S A) (k : A -> M S B) : M S B :=
  fun s => match m s with
           | Returned a s' => k a s'
           | Raised e s' => Raised e s'
           end.

Definition get {S} : M S S := fun s => Returned s s.
Definition put {S} (s' : S) : M S unit := fun _ => Returned tt s'.
Definition raise {S A} (e : exn) : M S A := fun s => Raised e s.

Definition lift {S A} (r : result A) : M S A :=
  match r with Ok a => ret a | Err e => raise e end.

Notation "'let*' x := m 'in' k" := (bind m (fun x => k))
  (at level 10, x pattern, m at level 100, k at level 200).

(** [for x in xs: acc = body(x, acc)], the body threading the local
    variables [acc]; a [continue] is a body that returns [acc] as it is. *)
Fixpoint for_each {S X A} (xs : list X) (body : X -> A -> M S A) (acc : A)
  : M S A :=
  match xs with
  | [] => ret acc
  | x :: xs' => let* acc' := body x acc in for_each xs' body acc'
  end.

(** The state a call leaves behind, returned or raised. *)
Definition state_after {S A} (o : outcome S A) : S :=
  match o with Returned _ s => s | Raised _ s => s end.

(** The outcome of a call that ends in the state [s], with the exception
    [e] if one was raised. *)
Definition finish {S A} (e : option exn) (a : A) (s : S) : outcome S A :=
  match e with None => Returned a s | Some e => Raised e s end.

(** [torch.cat(ts)] of one-dimensional tensors. *)
Definition torch_cat (ts : list (list Q)) : result (list Q) :=
  match ts with
  | [] => Err CatEmptyList
  | _ => Ok (concat ts)
  end.

(** ** The six accumulators *)

(** State of a threshold accumulator: the attribute [threshold] and the two
    states added by [add_state] with default [torch.tensor(0)]. *)
Record counters : Type := mk_counters {
  threshold : Q;
  correct : Z;
  total : Z
}.

Definition set_correct (v : Z) : M counters unit :=
  let* self := get in
  put {| threshold := threshold self; correct := v; total := total self |}.

Definition set_total (v : Z) : M counters unit :=
  let* self := get in
  put {| threshold := threshold self; correct := correct self; total := v |}.

Section Metrics.

Context {tensor : Type}.

(** The functions of [gpu_tensor_funcs] (imported as [gtf]). *)
Variable torch_quat_distance : tensor -> tensor -> result (list Q).
Variable get_3d_ious : tensor -> tensor -> tensor -> tensor -> result (list Q).
Variable from_RTs_get_T_offset_errors : tensor -> tensor -> result (list Q).

Local Abbreviation match_record := (gmap string (tensor * tensor)).

(** [key in d.keys()]. *)
Definition has_key (d : match_record) (key : string) : bool :=
  match d !! key with Some _ => true | None => false end.

(** [d[key]]. *)
Definition getitem {S} (d : match_record) (key : string)
  : M S (tensor * tensor) :=
  match d !! key with
  | Some v => ret v
  | None => raise (KeyError key)
  end.

(** [d[key][0]] and [d[key][1]]. *)
Definition getitem0 {S} (d : match_record) (key : string) : M S tensor :=
  let* v := getitem d key in ret (fst v).

Definition getitem1 {S} (d : match_record) (key : string) : M S tensor :=
  let* v := getitem d key in ret (snd v).

(** *** class DegreeErrorMeanAP *)

Definition DegreeErrorMeanAP_init (threshold : Q) : counters :=
  {| threshold := threshold; correct := 0; total := 0 |}.

Definition DegreeErrorMeanAP_update (gt_pred_matches : list match_record)
  : M counters unit :=
  for_each gt_pred_matches (fun m _ =>
    if negb (has_key m "quaternion") then ret tt
    else
      let* q0 := getitem0 m "quaternion" in
      let* q1 := getitem1 m "quaternion" in
      let* degree_distance := lift (torch_quat_distance q0 q1) in
      let* self := get in
      let thresh_degree_distance :=
        map (fun x => ltb x (threshold self)) degree_distance in
      let* _ := set_correct
                  (correct self + torch_sum_int thresh_degree_distance) in
      let* self := get in
      set_total (total self + shape0 thresh_degree_distance)) tt.

Definition DegreeErrorMeanAP_compute : M counters float :=
  let* self := get in
  ret (mul (div (of_Z (correct self)) (of_Z (total self))) (Fin 100)).

(** *** class DegreeError *)

Definition DegreeError_init : float := of_Z 0.

Definition DegreeError_update (gt_pred_matches : list match_record)
  : M float unit :=
  let* all_degree_distances :=
    for_each gt_pred_matches (fun m all_degree_distances =>
      if negb (has_key m "quaternion") then ret all_degree_distances
      else
        let* q0 := getitem0 m "quaternion" in
        let* q1 := getitem1 m "quaternion" in
        let* degree_distance := lift (torch_quat_distance q0 q1) in
        ret (all_degree_distances ++ [degree_distance])) [] in
  let* cat := lift (torch_cat all_degree_distances) in
  let this_round_error := torch_mean cat in
  let* error := get in
  put (div (add error this_round_error) (Fin 2)).

Definition DegreeError_compute : M float float := get.

(** *** class Iou3dAP *)

Definition Iou3dAP_init (threshold : Q) : counters :=
  {| threshold := threshold; correct := 0; total := 0 |}.

Definition Iou3dAP_update (gt_pred_matches : list match_record)
  : M counters unit :=
  for_each gt_pred_matches (fun m _ =>
    if negb (has_key m "RT") then ret tt
    else
      let* gt_RTs := getitem0 m "RT" in
      let* gt_scales := getitem0 m "scales" in
      let* pred_RTs := getitem1 m "RT" in
      let* pred_scales := getitem1 m "scales" in
      let* ious_3d :=
        lift (get_3d_ious gt_RTs pred_RTs gt_scales pred_scales) in
      let* self := get in
      let thresh_iou_3d := map (fun x => gtb x (threshold self)) ious_3d in
      let* _ := set_correct (correct self + torch_sum_int thresh_iou_3d) in
      let* self := get in
      set_total (total self + shape0 thresh_iou_3d)) tt.

Definition Iou3dAP_compute : M counters float :=
  let* self := get in
  ret (mul (div (of_Z (correct self)) (of_Z (total self))) (Fin 100)).

(** *** class Iou3dAccuracy *)

Definition Iou3dAccuracy_init : float := of_Z 0.

Definition Iou3dAccuracy_update (gt_pred_matches : list match_record)
  : M float unit :=
  let* all_ious_3d :=
    for_each gt_pred_matches (fun m all_ious_3d =>
      if negb (has_key m "RT") then ret all_ious_3d
      else
        let* gt_RTs := getitem0 m "RT" in
        let* gt_scales := getitem0 m "scales" in
        let* pred_RTs := getitem1 m "RT" in
        let* pred_scales := getitem1 m "scales" in
        let* ious :=
          lift (get_3d_ious gt_RTs pred_RTs gt_scales pred_scales) in
        let ious_3d := map (fun x => (x * 100)%Q) ious in
        ret (all_ious_3d ++ [ious_3d])) [] in
  let* cat := lift (torch_cat all_ious_3d) in
  let this_round_accuracy := torch_mean cat in
  let* accuracy := get in
  put (div (add accuracy this_round_accuracy) (Fin 2)).

Definition Iou3dAccuracy_compute : M float float := get.

(** *** class OffsetAP *)

Definition OffsetAP_init (threshold : Q) : counters :=
  {| threshold := threshold; correct := 0; total := 0 |}.

Definition OffsetAP_update (gt_pred_matches : list match_record)
  : M counters unit :=
  for_each gt_pred_matches (fun m _ =>
    if negb (has_key m "RT") then ret tt
    else
      let* gt_RTs := getitem0 m "RT" in
      let* pred_RTs := getitem1 m "RT" in
      let* offset_errors :=
        lift (from_RTs_get_T_offset_errors gt_RTs pred_RTs) in
      let* self := get in
      let thresh_offset_error :=
        map (fun x => ltb x (threshold self)) offset_errors in
      let* _ := set_correct
                  (correct self + torch_sum_int thresh_offset_error) in
      let* self := get in
      set_total (total self + shape0 thresh_offset_error)) tt.

Definition OffsetAP_compute : M counters float :=
  let* self := get in
  ret (mul (div (of_Z (correct self)) (of_Z (total self))) (Fin 100)).

(** *** class OffsetError *)

Definition OffsetError_init : float := of_Z 0.

Definition OffsetError_update (gt_pred_matches : list match_record)
  : M float unit :=
  for_each gt_pred_matches (fun m _ =>
    if negb (has_key m "RT") then ret tt
    else
      let* gt_RTs := getitem0 m "RT" in
      let* pred_RTs := getitem1 m "RT" in
      let* offset_errors :=
        lift (from_RTs_get_T_offset_errors gt_RTs pred_RTs) in
      let this_round_error := torch_mean offset_errors in
      let* error := get in
      put (div (add error this_round_error) (Fin 2))) tt.

Definition OffsetError_compute : M float float := get.

(** ** Vocabulary of the specification *)

(** What a class slot is to an accumulator: [None] when the slot is skipped
    (the field tested by the guard is absent), otherwise the per-instance
    score sequence of the slot, or the exception raised while scoring it. *)
Definition quat_slot (m : match_record) : option (result (list Q)) :=
  match m !! "quaternion" with
  | None => None
  | Some (q0, q1) => Some (torch_quat_distance q0 q1)
  end.

Definition offset_slot (m : match_record) : option (result (list Q)) :=
  match m !! "RT" with
  | None => None
  | Some (gt_RTs, pred_RTs) =>
      Some (from_RTs_get_T_offset_errors gt_RTs pred_RTs)
  end.

Definition iou_slot (m : match_record) : option (result (list Q)) :=
  match m !! "RT" with
  | None => None
  | Some (gt_RTs, pred_RTs) =>
      Some match m !! "scales" with
           | None => Err (KeyError "scales")
           | Some (gt_scales, pred_scales) =>
               get_3d_ious gt_RTs pred_RTs gt_scales pred_scales
           end
  end.

(** The IoU scores as percentages, as [Iou3dAccuracy] reads them. *)
Definition iou_percent_slot (m : match_record) : option (result (list Q)) :=
  match iou_slot m with
  | Some (Ok ious) => Some (Ok (map (fun x => (x * 100)%Q) ious))
  | other => other
  end.

End Metrics.

Section Vocabulary.

Context {record : Type}.
Variable slot : record -> option (result (list Q)).

(** The score sequences of the non-skipped slots of a batch, in batch
    order, up to the first slot whose scoring raises, and that exception.
    When the second component is [None], the first one lists every
    non-skipped slot of the batch. *)
Fixpoint scores (batch : list record) : list (list Q) * option exn :=
  match batch with
  | [] => ([], None)
  | m :: rest =>
      match slot m with
      | None => scores rest
      | Some (Err e) => ([], Some e)
      | Some (Ok d) => let '(ds, e) := scores rest in (d :: ds, e)
      end
  end.

(** Every slot of the batch is skipped. *)
Definition all_skipped (batch : list record) : Prop :=
  Forall (fun m => slot m = None) batch.

(** Number of instances scored in a batch. *)
Definition instance_count (batch : list record) : Z :=
  foldr Z.add 0%Z (map shape0 (fst (scores batch))).

(** Every score sequence counted by a sequence of calls. *)
Definition all_scores (batches : list (list record)) : list (list Q) :=
  concat (map (fun b => fst (scores b)) batches).

End Vocabulary.

(** Number of scores of [d] that pass the threshold. *)
Definition passing (pass : Q -> Q -> bool) (thr : Q) (d : list Q) : Z :=
  torch_sum_int (map (fun x => pass x thr) d).

(** The counters after the score sequences [ds] were counted. *)
Definition counted (pass : Q -> Q -> bool) (s : counters)
  (ds : list (list Q)) : counters :=
  {| threshold := threshold s;
     correct := correct s + foldr Z.add 0 (map (passing pass (threshold s)) ds);
     total := total s + foldr Z.add 0 (map shape0 ds) |}%Z.

(** One blend of the register with a value. *)
Definition blend (register value : float) : float :=
  div (add register value) (Fin 2).

(** A sequence of [update] calls on one accumulator; a call that raises
    leaves its state to the next call. *)
Definition calls {S B} (update : B -> M S unit) (batches : list B) (s : S)
  : S :=
  foldl (fun s b => state_after (update b s)) s batches.

(** The value a call returns, if it returns. *)
Definition value_of {S A} (o : outcome S A) : option A :=
  match o with Returned a _ => Some a | Raised _ _ => None end.

(** [dist_reduce_fx='sum'] on the states [correct] and [total] of two
    workers. *)
Definition reduce_sum (s1 s2 : counters) : counters :=
  {| threshold := threshold s1;
     correct := correct s1 + correct s2;
     total := total s1 + total s2 |}%Z.

(** The running-mean [update] in the words of the specification: the score
    sequences of the non-skipped slots are concatenated into one flat
    sequence, its mean is this round's value, and the register is blended
    with it once; a batch without a non-skipped slot is an error. *)
Definition spec_running_mean_update {record}
  (slot : record -> option (result (list Q))) (batch : list record)
  : M float unit :=
  match snd (scores slot batch), fst (scores slot batch) with
  | Some e, _ => raise e
  | None, [] => raise CatEmptyList
  | None, ds =>
      let this_round_value := torch_mean (concat ds) in
      let* register := get in
      put (blend register this_round_value)
  end.

(** [r / 2^k + sum_i m_i / 2^(k-i+1)] for the slot means [m_1 .. m_k]. *)
Definition pow2 (k : nat) : float := Fin (inject_Z (2 ^ Z.of_nat k)).

Fixpoint weighted_sum (ms : list float) : float :=
  match ms with
  | [] => Fin 0
  | m :: rest => add (div m (pow2 (length ms))) (weighted_sum rest)
  end.

Definition decayed (r : float) (ms : list float) : float :=
  add (div r (pow2 (length ms))) (weighted_sum ms).

(** The three ways a loop body folds the scores of a slot into its local
    variable and the state. *)
Definition count_step (pass : Q -> Q -> bool)
  (st : unit * counters) (d : list Q) : unit * counters :=
  (tt, counted pass (snd st) [d]).

Definition collect_step (st : list (list Q) * float) (d : list Q)
  : list (list Q) * float :=
  (fst st ++ [d], snd st).

Definition blend_step (st : unit * float) (d : list Q) : unit * float :=
  (tt, blend (snd st) (torch_mean d)).

(** A call returns and leaves the register at the value [v]. *)
Definition leaves (o : outcome float unit) (v : float) : Prop :=
  match o with Returned _ r => same r v | Raised _ _ => False end.

(** ** Statements shared by the accumulators *)

(** The counting rule of a threshold accumulator: every non-skipped slot
    adds the number of its passing scores to [correct] and its length to
    [total]. *)
Definition counting_rule {record} (update : list record -> M counters unit)
  (slot : record -> option (result (list Q))) (pass : Q -> Q -> bool) : Prop :=
  (forall m rest d s, slot m = Some (Ok d) ->
     update (m :: rest) s =
       update rest {| threshold := threshold s;
                      correct := correct s + passing pass (threshold s) d;
                      total := total s + shape0 d |}%Z) /\
  (forall batch s, snd (scores slot batch) = None ->
     update batch s = Returned tt (counted pass s (fst (scores slot batch)))).

(** The skip rule of a threshold accumulator. *)
Definition skip_rule {record} (update : list record -> M counters unit)
  (slot : record -> option (result (list Q))) (pass : Q -> Q -> bool) : Prop :=
  (forall pre m post s, slot m = None ->
     update (pre ++ m :: post) s = update (pre ++ post) s) /\
  (forall batch s, all_skipped slot batch -> update batch s = Returned tt s) /\
  (forall m0 m1 x s,
     slot m0 = None -> slot m1 = Some (Ok [x]) ->
     pass x (threshold s) = true ->
     update [m0; m1] s =
       Returned tt {| threshold := threshold s;
                      correct := correct s + 1;
                      total := total s + 1 |}%Z).

(** The counters of a threshold accumulator over sequences of calls that
    start in the state [init]. *)
Definition counter_invariants {record} (update : list record -> M counters unit)
  (slot : record -> option (result (list Q))) (init : counters) : Prop :=
  (forall batches,
     0 <= correct (calls update batches init)
       <= total (calls update batches init))%Z /\
  (forall batch s,
     correct s <= correct (state_after (update batch s)) /\
     total s <= total (state_after (update batch s)))%Z /\
  (forall batches,
     total (calls update batches init) =
       foldr Z.add 0%Z (map (instance_count slot) batches)).

(** Summing the states of two workers and computing, against one
    accumulator fed both workers' batches. *)
Definition reduction_rule {record} (update : list record -> M counters unit)
  (compute : M counters float) (init : counters) : Prop :=
  forall batches1 batches2,
    reduce_sum (calls update batches1 init) (calls update batches2 init)
      = calls update (batches1 ++ batches2) init /\
    value_of (compute (reduce_sum (calls update batches1 init)
                                  (calls update batches2 init)))
      = value_of (compute (calls update (batches1 ++ batches2) init)).

(** [compute] of a threshold accumulator. *)
Definition percent_rule (compute : M counters float) : Prop :=
  (forall s, total s <> 0%Z ->
     exists v, compute s = Returned v s /\
       same v (Fin (100 * inject_Z (correct s) / inject_Z (total s)))) /\
  (forall s, total s = 0%Z ->
     exists v, compute s = Returned v s /\ forall q, v <> Fin q) /\
  (forall s, total s = 0%Z -> correct s = 0%Z -> compute s = Returned NaN s).

(** A method that returns a value and leaves the state as it was; two
    calls in a row return the same value. *)
Definition reads_only {S A} (method : M S A) : Prop :=
  forall s, exists v,
    method s = Returned v s /\
    (let* a := method in let* b := method in ret (a, b)) s = Returned (v, v) s.

(** ** A concrete instance

    Tensors are lists of rationals; the scorers compare ground truth and
    prediction elementwise and raise on lists of different lengths. *)

Definition ex_elementwise (f : Q -> Q -> Q) (gt pred : list Q)
  : result (list Q) :=
  if Nat.eqb (length gt) (length pred) then Ok (zip_with f gt pred)
  else Err ScorerRaised.

Definition ex_quat_distance : list Q -> list Q -> result (list Q) :=
  ex_elementwise (fun a b => Qabs (a - b)%Q).

Definition ex_offset_errors : list Q -> list Q -> result (list Q) :=
  ex_elementwise (fun a b => Qabs (a - b)%Q).

Definition ex_3d_ious (gt_RTs pred_RTs gt_scales pred_scales : list Q)
  : result (list Q) :=
  if Nat.eqb (length gt_RTs) (length gt_scales)
  then ex_elementwise (fun a b => (Qmin a b / Qmax a b)%Q) gt_scales pred_scales
  else Err ScorerRaised.

Definition ex_empty : gmap string (list Q * list Q) := ∅.

Definition ex_quat (errors : list Q) : gmap string (list Q * list Q) :=
  {[ "quaternion" := (map (fun _ => 0%Q) errors, errors) ]}.

Definition ex_RT (errors : list Q) : gmap string (list Q * list Q) :=
  {[ "RT" := (map (fun _ => 0%Q) errors, errors) ]}.

Definition ex_RT_scales (gt_scales pred_scales : list Q)
  : gmap string (list Q * list Q) :=
  <[ "scales" := (gt_scales, pred_scales) ]> (ex_RT gt_scales).

(** ** Further statements about the accumulators *)

(** Feeding a batch in two pieces, one call after the other, is the same
    as feeding it whole. *)
Definition splits {S record} (update : list record -> M S unit) : Prop :=
  forall batch1 batch2 s,
    update (batch1 ++ batch2) s =
      (let* _ := update batch1 in update batch2) s.

(** The order of the class slots of a batch that scores without raising
    does not matter. *)
Definition order_independent {record}
  (update : list record -> M counters unit)
  (slot : record -> option (result (list Q))) : Prop :=
  forall batch batch' s,
    batch ≡ₚ batch' -> snd (scores slot batch) = None ->
    update batch s = update batch' s.

(** The first slot whose scoring raises ends the call with its exception:
    the slots after it are not looked at, and the state is what the slots
    before it made of it. *)
Definition raises_at {S record} (update : list record -> M S unit)
  (slot : record -> option (result (list Q)))
  (made : S -> list (list Q) -> S) : Prop :=
  forall pre m post s e,
    snd (scores slot pre) = None -> slot m = Some (Err e) ->
    update (pre ++ m :: post) s = Raised e (made s (fst (scores slot pre))).

(** What [compute] reports after any sequence of calls on a fresh
    threshold accumulator: NaN while nothing was scored, a percentage
    afterwards. *)
Definition percent_range {record} (update : list record -> M counters unit)
  (compute : M counters float) (init : counters) : Prop :=
  forall batches,
    let s := calls update batches init in
    (total s = 0%Z /\ compute s = Returned NaN s) \/
    (total s <> 0%Z /\
     exists q, compute s = Returned (Fin q) s /\ (0 <= q <= 100)%Q).

(** A call that raises leaves the state as it found it. *)
Definition raise_keeps_state {S record} (update : list record -> M S unit)
  : Prop :=
  forall batch s,
    value_of (update batch s) = None -> state_after (update batch s) = s.

(** Once the register is NaN, every call leaves it NaN. *)
Definition nan_persists {record} (update : list record -> M float unit)
  : Prop :=
  forall batch, state_after (update batch NaN) = NaN.

(** The blends of the register [r] with the means of [ds], in order. *)
Definition blends (r : float) (ds : list (list Q)) : float :=
  foldl (fun r d => blend r (torch_mean d)) r ds.



(** A slot whose ground truth and prediction disagree in length: the
    scorers of the instance raise on it. *)
Definition ex_mismatch : gmap string (list Q * list Q) :=
  {[ "quaternion" := ([0]%Q, [1; 2]%Q); "RT" := ([0]%Q, [1; 2]%Q) ]}.

(** ** SegmentationTask.loss_function (old_cold/segmentation_task.py)

    A Python [dict] whose iteration order matters is the list of its items
    in insertion order; the keys of a dict are distinct.  The callables
    stored in [self.criterion] and [self.metrics] come from other
    libraries: they are values of the dicts, and a call of one either gives
    a value or raises ([None]).  A loss is a scalar tensor, a [float]. *)

Inductive task_exn : Type :=
| TaskKeyError (key : string)   (* a dict lookup of an absent key *)
| StackEmptyList                (* RuntimeError of torch.stack on an empty list *)
| CallableRaised.               (* any exception out of a criterion or metric *)

Inductive task_result (A : Type) : Type :=
| Done (a : A)
| Failed (e : task_exn).
Arguments Done {A} a.
Arguments Failed {A} e.

Definition task_bind {A B} (r : task_result A) (k : A -> task_result B)
  : task_result B :=
  match r with Done a => k a | Failed e => Failed e end.

Notation "'let+' x := m 'in' k" := (task_bind m (fun x => k))
  (at level 10, x pattern, m at level 100, k at level 200).

(** A call of a callable of another library. *)
Definition call {A} (r : option A) : task_result A :=
  match r with Some a => Done a | None => Failed CallableRaised end.

Definition pydict (V : Type) : Type := list (string * V).

(** [d[key]]. *)
Fixpoint dict_getitem {V} (d : pydict V) (key : string) : task_result V :=
  match d with
  | [] => Failed (TaskKeyError key)
  | (k, v) :: d' => if decide (k = key) then Done v else dict_getitem d' key
  end.

(** [d[key] = v]: an existing key keeps its place, a new one goes last. *)
Fixpoint dict_setitem {V} (d : pydict V) (key : string) (v : V) : pydict V :=
  match d with
  | [] => [(key, v)]
  | (k, v0) :: d' =>
      if decide (k = key) then (k, v) :: d'
      else (k, v0) :: dict_setitem d' key v
  end.

(** [[f(x) for x in xs]], stopping at the first [f(x)] that raises. *)
Fixpoint list_comprehension {X W} (f : X -> task_result W) (xs : list X)
  : task_result (list W) :=
  match xs with
  | [] => Done []
  | x :: xs' =>
      let+ w := f x in
      let+ ws := list_comprehension f xs' in
      Done (w :: ws)
  end.

(** [{k: f(v) for k, v in d.items()}]. *)
Definition dict_comprehension {V W} (f : V -> task_result W) (d : pydict V)
  : task_result (pydict W) :=
  list_comprehension (fun kv => let+ w := f (snd kv) in Done (fst kv, w)) d.

(** [torch.stack(ts)] of scalar tensors. *)
Definition torch_stack (ts : list float) : task_result (list float) :=
  match ts with
  | [] => Failed StackEmptyList
  | _ => Done ts
  end.

(** [torch.sum(t)]. *)
Definition torch_sum (t : list float) : float := foldr add (Fin 0) t.

Section Task.

Context {tensor mvalue : Type}.

(** An entry of [self.criterion]: [{'F': ..., 'weight': ...}]. *)
Record criterion_entry : Type := {
  F : tensor -> tensor -> option float;
  weight : Q
}.

Record SegmentationTask : Type := {
  criterion : pydict criterion_entry;
  metrics : pydict (tensor -> tensor -> option mvalue)
}.

Definition loss_function (self : SegmentationTask) (pred gt : tensor)
  : task_result (pydict float * pydict mvalue) :=
  let+ losses :=
    dict_comprehension (fun v => call (F v pred gt)) (criterion self) in
  let+ metrics :=
    dict_comprehension (fun v => call (v pred gt)) (metrics self) in
  let+ stacked := torch_stack (map snd losses) in
  let total_loss := torch_sum stacked in
  let+ weighted_losses :=
    list_comprehension
      (fun key =>
         let+ loss := dict_getitem losses key in
         let+ entry := dict_getitem (criterion self) key in
         Done (mul loss (Fin (weight entry))))
      (map fst losses) in
  let+ stacked := torch_stack weighted_losses in
  let weighted_sum := torch_sum stacked in
  let losses := dict_setitem losses "loss" weighted_sum in
  let losses := dict_setitem losses "total_loss" total_loss in
  Done (losses, metrics).

End Task.

Arguments criterion_entry : clear implicits.
Arguments SegmentationTask : clear implicits.

(** The weighted losses, entry by entry. *)
Definition weigh {tensor} (losses : pydict float)
  (criterion : pydict (criterion_entry tensor)) : list float :=
  zip_with (fun l c => mul (snd l) (Fin (weight (snd c)))) losses criterion.

(** Every callable of a dict returns on [pred] and [gt]. *)
Definition all_return {tensor V W} (get : V -> tensor -> tensor -> option W)
  (d : pydict V) (pred gt : tensor) : Prop :=
  Forall (fun kv => is_Some (get (snd kv) pred gt)) d.

(** A task with two criteria and one metric, on tensors without content. *)
Definition ex_task : SegmentationTask unit Q :=
  {| criterion :=
       [("loss_ce", {| F := fun _ _ => Some (Fin 2); weight := 4 # 5 |});
        ("loss_focal", {| F := fun _ _ => Some (Fin 1); weight := 1 |})];
     metrics := [("dice", fun _ _ => Some (1 # 2)%Q)] |}.

Definition ex_task_unit : SegmentationTask unit Q :=
  {| criterion :=
       [("loss_ce", {| F := fun _ _ => Some (Fin 2); weight := 1 |});
        ("loss", {| F := fun _ _ => Some (Fin 3); weight := 1 |})];
     metrics := [] |}.

(** * Properties *)

(** ** The loop over the class slots *)

Section Loop.

Context {record S A : Type}.
Variable slot : record -> option (result (list Q)).
Variable body : record -> A -> M S A.
Variable step : A * S -> list Q -> A * S.

(** The body skips, raises or folds the scores of the slot. *)
Hypothesis body_slot : forall m acc s,
  body m acc s =
    match slot m with
    | None => Returned acc s
    | Some (Err e) => Raised e s
    | Some (Ok d) => Returned (fst (step (acc, s) d)) (snd (step (acc, s) d))
    end.

Lemma for_each_scores batch acc s :
  for_each batch body acc s =
    let r := foldl step (acc, s) (fst (scores slot batch)) in
    finish (snd (scores slot batch)) (fst r) (snd r).
Proof.
  revert acc s. induction batch as [|m rest IH]; intros acc s; [reflexivity|].
  cbn [for_each scores]. unfold bind. rewrite body_slot.
  destruct (slot m) as [[d|e]|]; [| reflexivity | apply IH].
  rewrite IH. destruct (scores slot rest) as [ds e]. cbn.
  destruct (step (acc, s) d); reflexivity.
Qed.

End Loop.

(** ** Each [update] in terms of the scores of its batch *)

Lemma shape0_map {A B} (f : A -> B) (t : list A) : shape0 (map f t) = shape0 t.
Proof. unfold shape0. now rewrite length_map. Qed.

Lemma counted_nil pass s : counted pass s [] = s.
Proof. destruct s. unfold counted. cbn. f_equal; lia. Qed.

Lemma counted_cons pass s d ds :
  counted pass s (d :: ds) = counted pass (counted pass s [d]) ds.
Proof. unfold counted. cbn. f_equal; lia. Qed.

Lemma counted_app pass s ds1 ds2 :
  counted pass s (ds1 ++ ds2) = counted pass (counted pass s ds1) ds2.
Proof.
  revert s. induction ds1 as [|d ds1 IH]; intros s; cbn [app].
  - now rewrite counted_nil.
  - rewrite counted_cons, IH. symmetry. now rewrite counted_cons.
Qed.

Lemma foldl_count_step pass s ds :
  foldl (count_step pass) (tt, s) ds = (tt, counted pass s ds).
Proof.
  revert s. induction ds as [|d ds IH]; intros s; cbn [foldl].
  - now rewrite counted_nil.
  - unfold count_step at 2. cbn [snd]. now rewrite IH, <- counted_cons.
Qed.

Lemma foldl_collect_step acc r ds :
  foldl collect_step (acc, r) ds = (acc ++ ds, r).
Proof.
  revert acc. induction ds as [|d ds IH]; intros acc; cbn [foldl].
  - now rewrite app_nil_r.
  - unfold collect_step at 2. cbn [fst snd]. now rewrite IH, <- app_assoc.
Qed.

Lemma foldl_blend_step r ds :
  foldl blend_step (tt, r) ds =
    (tt, foldl (fun r d => blend r (torch_mean d)) r ds).
Proof.
  revert r. induction ds as [|d ds IH]; intros r; cbn [foldl]; [reflexivity|].
  unfold blend_step at 2. cbn [snd]. apply IH.
Qed.

Ltac run_body :=
  unfold has_key, getitem0, getitem1, getitem, set_correct, set_total,
    bind, lift, ret, raise, get, put; cbn.

Section Characterisation.

Context {tensor : Type}.
Variable torch_quat_distance : tensor -> tensor -> result (list Q).
Variable get_3d_ious : tensor -> tensor -> tensor -> tensor -> result (list Q).
Variable from_RTs_get_T_offset_errors : tensor -> tensor -> result (list Q).

Local Abbreviation match_record := (gmap string (tensor * tensor)).
Local Abbreviation quat := (quat_slot torch_quat_distance).
Local Abbreviation iou := (iou_slot get_3d_ious).
Local Abbreviation iou_percent := (iou_percent_slot get_3d_ious).
Local Abbreviation offset := (offset_slot from_RTs_get_T_offset_errors).

Lemma count_body_eq pass (s : counters) (d : list Q) :
  {| threshold := threshold s;
     correct := correct s + torch_sum_int (map (fun x => pass x (threshold s)) d);
     total := total s + shape0 (map (fun x => pass x (threshold s)) d) |}
  = counted pass s [d].
Proof.
  unfold counted, passing. cbn. rewrite shape0_map. f_equal; lia.
Qed.

Lemma DegreeErrorMeanAP_update_scores (batch : list match_record) s :
  DegreeErrorMeanAP_update torch_quat_distance batch s =
    finish (snd (scores quat batch)) tt (counted ltb s (fst (scores quat batch))).
Proof.
  unfold DegreeErrorMeanAP_update.
  rewrite (for_each_scores quat _ (count_step ltb)).
  - now rewrite foldl_count_step.
  - intros m [] s0. unfold quat_slot. run_body.
    destruct (m !! "quaternion") as [[q0 q1]|]; cbn; [|reflexivity].
    destruct (torch_quat_distance q0 q1); cbn; [|reflexivity].
    now rewrite count_body_eq.
Qed.

Lemma OffsetAP_update_scores (batch : list match_record) s :
  OffsetAP_update from_RTs_get_T_offset_errors batch s =
    finish (snd (scores offset batch)) tt
      (counted ltb s (fst (scores offset batch))).
Proof.
  unfold OffsetAP_update.
  rewrite (for_each_scores offset _ (count_step ltb)).
  - now rewrite foldl_count_step.
  - intros m [] s0. unfold offset_slot. run_body.
    destruct (m !! "RT") as [[g p]|]; cbn; [|reflexivity].
    destruct (from_RTs_get_T_offset_errors g p); cbn; [|reflexivity].
    now rewrite count_body_eq.
Qed.

Lemma Iou3dAP_update_scores (batch : list match_record) s :
  Iou3dAP_update get_3d_ious batch s =
    finish (snd (scores iou batch)) tt (counted gtb s (fst (scores iou batch))).
Proof.
  unfold Iou3dAP_update.
  rewrite (for_each_scores iou _ (count_step gtb)).
  - now rewrite foldl_count_step.
  - intros m [] s0. unfold iou_slot. run_body.
    destruct (m !! "RT") as [[g p]|]; cbn; [|reflexivity].
    destruct (m !! "scales") as [[gs ps]|]; cbn; [|reflexivity].
    destruct (get_3d_ious g p gs ps); cbn; [|reflexivity].
    now rewrite count_body_eq.
Qed.

(** The two accumulators that concatenate agree with the specification's
    running-mean update. *)
Lemma DegreeError_update_spec (batch : list match_record) r :
  DegreeError_update torch_quat_distance batch r =
    spec_running_mean_update quat batch r.
Proof.
  unfold DegreeError_update, spec_running_mean_update. unfold bind at 1.
  rewrite (for_each_scores quat _ collect_step).
  - rewrite foldl_collect_step.
    destruct (scores quat batch) as [ds [e|]]; cbn; [reflexivity|].
    destruct ds; reflexivity.
  - intros m acc s0. unfold quat_slot. run_body.
    destruct (m !! "quaternion") as [[q0 q1]|]; cbn; [|reflexivity].
    destruct (torch_quat_distance q0 q1); reflexivity.
Qed.

Lemma Iou3dAccuracy_update_spec (batch : list match_record) r :
  Iou3dAccuracy_update get_3d_ious batch r =
    spec_running_mean_update iou_percent batch r.
Proof.
  unfold Iou3dAccuracy_update, spec_running_mean_update. unfold bind at 1.
  rewrite (for_each_scores iou_percent _ collect_step).
  - rewrite foldl_collect_step.
    destruct (scores iou_percent batch) as [ds [e|]]; cbn; [reflexivity|].
    destruct ds; reflexivity.
  - intros m acc s0. unfold iou_percent_slot, iou_slot. run_body.
    destruct (m !! "RT") as [[g p]|]; cbn; [|reflexivity].
    destruct (m !! "scales") as [[gs ps]|]; cbn; [|reflexivity].
    destruct (get_3d_ious g p gs ps); reflexivity.
Qed.

(** [OffsetError] blends once per scored slot. *)
Lemma OffsetError_update_scores (batch : list match_record) r :
  OffsetError_update from_RTs_get_T_offset_errors batch r =
    finish (snd (scores offset batch)) tt
      (foldl (fun r d => blend r (torch_mean d)) r (fst (scores offset batch))).
Proof.
  unfold OffsetError_update.
  rewrite (for_each_scores offset _ blend_step).
  - now rewrite foldl_blend_step.
  - intros m [] s0. unfold offset_slot. run_body.
    destruct (m !! "RT") as [[g p]|]; cbn; [|reflexivity].
    destruct (from_RTs_get_T_offset_errors g p); reflexivity.
Qed.

End Characterisation.

(** ** Counting accumulators, generically *)

Lemma torch_sum_int_bounds (t : list bool) :
  (0 <= torch_sum_int t <= shape0 t)%Z.
Proof.
  unfold torch_sum_int, shape0.
  pose proof (length_filter (fun b => b = true) t). lia.
Qed.

Lemma passing_bounds pass thr d : (0 <= passing pass thr d <= shape0 d)%Z.
Proof.
  unfold passing.
  pose proof (torch_sum_int_bounds (map (fun x => pass x thr) d)) as H.
  now rewrite shape0_map in H.
Qed.

Lemma shape0_nonneg {A} (t : list A) : (0 <= shape0 t)%Z.
Proof. unfold shape0. lia. Qed.

Lemma sum_passing_bounds pass thr ds :
  (0 <= foldr Z.add 0 (map (passing pass thr) ds)
     <= foldr Z.add 0 (map shape0 ds))%Z.
Proof.
  induction ds as [|d ds IH]; cbn; [lia|].
  pose proof (passing_bounds pass thr d). lia.
Qed.

Lemma threshold_counted pass s ds : threshold (counted pass s ds) = threshold s.
Proof. reflexivity. Qed.

Lemma total_counted pass s ds :
  total (counted pass s ds) = (total s + foldr Z.add 0 (map shape0 ds))%Z.
Proof. reflexivity. Qed.

Lemma state_after_finish {S A} e (a : A) (s : S) :
  state_after (finish e a s) = s.
Proof. now destruct e. Qed.

Section Counting.

Context {record : Type}.
Variable slot : record -> option (result (list Q)).
Variable pass : Q -> Q -> bool.
Variable update : list record -> M counters unit.

Hypothesis update_scores : forall batch s,
  update batch s =
    finish (snd (scores slot batch)) tt
      (counted pass s (fst (scores slot batch))).

Lemma state_after_update batch s :
  state_after (update batch s) = counted pass s (fst (scores slot batch)).
Proof. rewrite update_scores. apply state_after_finish. Qed.

Lemma calls_counted batches s :
  calls update batches s = counted pass s (all_scores slot batches).
Proof.
  revert s. unfold calls, all_scores.
  induction batches as [|b bs IH]; intros s; cbn [foldl map concat].
  - now rewrite counted_nil.
  - now rewrite IH, state_after_update, counted_app.
Qed.

Lemma update_returns batch s :
  snd (scores slot batch) = None ->
  update batch s = Returned tt (counted pass s (fst (scores slot batch))).
Proof. intros H. now rewrite update_scores, H. Qed.

Lemma scores_all_skipped batch :
  all_skipped slot batch -> scores slot batch = ([], None).
Proof.
  induction 1 as [|m rest Hm _ IH]; cbn; [reflexivity|]. now rewrite Hm.
Qed.

Lemma scores_skip pre m post :
  slot m = None -> scores slot (pre ++ m :: post) = scores slot (pre ++ post).
Proof.
  intros Hm. induction pre as [|m' pre IH]; cbn.
  - now rewrite Hm.
  - now rewrite IH.
Qed.

Lemma update_all_skipped batch s :
  all_skipped slot batch -> update batch s = Returned tt s.
Proof.
  intros H. rewrite update_scores, (scores_all_skipped _ H). cbn.
  now rewrite counted_nil.
Qed.

Lemma update_skip pre m post s :
  slot m = None -> update (pre ++ m :: post) s = update (pre ++ post) s.
Proof. intros H. now rewrite !update_scores, (scores_skip _ _ _ H). Qed.

Lemma update_invariant batch s :
  (0 <= correct s <= total s)%Z ->
  (0 <= correct (state_after (update batch s))
     <= total (state_after (update batch s)))%Z.
Proof.
  intros H. rewrite state_after_update. cbn.
  pose proof (sum_passing_bounds pass (threshold s) (fst (scores slot batch))).
  lia.
Qed.

Lemma update_monotone batch s :
  (correct s <= correct (state_after (update batch s)))%Z /\
  (total s <= total (state_after (update batch s)))%Z.
Proof.
  rewrite state_after_update. cbn.
  pose proof (sum_passing_bounds pass (threshold s) (fst (scores slot batch))).
  lia.
Qed.

Lemma calls_invariant batches s :
  (0 <= correct s <= total s)%Z ->
  (0 <= correct (calls update batches s) <= total (calls update batches s))%Z.
Proof.
  revert s. unfold calls.
  induction batches as [|b bs IH]; intros s H; cbn [foldl]; [exact H|].
  apply IH. now apply update_invariant.
Qed.

Lemma calls_total batches s :
  total (calls update batches s) =
    (total s + foldr Z.add 0 (map (instance_count slot) batches))%Z.
Proof.
  revert s. unfold calls.
  induction batches as [|b bs IH]; intros s; cbn [foldl map foldr]; [lia|].
  rewrite IH, state_after_update, total_counted. unfold instance_count. lia.
Qed.

Lemma update_cons_scored m rest d s :
  slot m = Some (Ok d) ->
  update (m :: rest) s = update rest (counted pass s [d]).
Proof.
  intros Hm. rewrite !update_scores. cbn [scores]. rewrite Hm.
  destruct (scores slot rest) as [ds e]. cbn [fst snd].
  now rewrite <- counted_cons.
Qed.

Lemma update_skip_then_one m0 m1 x s :
  slot m0 = None -> slot m1 = Some (Ok [x]) -> pass x (threshold s) = true ->
  update [m0; m1] s =
    Returned tt {| threshold := threshold s;
                   correct := correct s + 1;
                   total := total s + 1 |}.
Proof.
  intros H0 H1 Hx. rewrite update_scores. cbn [scores]. rewrite H0, H1.
  unfold counted, passing. cbn. now rewrite Hx.
Qed.

Lemma scores_app_raise pre m post e :
  snd (scores slot pre) = None -> slot m = Some (Err e) ->
  scores slot (pre ++ m :: post) = (fst (scores slot pre), Some e).
Proof.
  intros Hpre Hm. induction pre as [|m' pre IH]; cbn [app scores].
  - now rewrite Hm.
  - cbn [scores] in Hpre. destruct (slot m') as [[d|e']|].
    + destruct (scores slot pre) as [ds e0]. cbn [snd] in Hpre. subst e0.
      now rewrite IH.
    + discriminate.
    + now apply IH.
Qed.

Lemma calls_app_reduce thr batches1 batches2 :
  let init := {| threshold := thr; correct := 0; total := 0 |} in
  calls update (batches1 ++ batches2) init =
    reduce_sum (calls update batches1 init) (calls update batches2 init).
Proof.
  intros init. rewrite !calls_counted. unfold all_scores.
  rewrite map_app, concat_app, counted_app.
  unfold reduce_sum, counted. cbn. f_equal; lia.
Qed.

End Counting.

(** ** Float scalars: the laws the blends need *)

Section FloatLaws.

Local Open Scope Q_scope.

Lemma same_refl a : same a a.
Proof. destruct a; cbn; [reflexivity | exact I ..]. Qed.

Lemma same_sym a b : same a b -> same b a.
Proof. destruct a, b; cbn; try tauto. intros H. now symmetry. Qed.

Lemma same_trans a b c : same a b -> same b c -> same a c.
Proof.
  destruct a, b, c; cbn; try tauto. intros H1 H2. now rewrite H1.
Qed.

Lemma add_same a a' b b' :
  same a a' -> same b b' -> same (add a b) (add a' b').
Proof.
  destruct a, a', b, b'; cbn; try tauto. intros H1 H2. now rewrite H1, H2.
Qed.

Lemma add_assoc_same a b c : same (add (add a b) c) (add a (add b c)).
Proof.
  destruct a, b, c; cbn; try exact I. symmetry. apply Qplus_assoc.
Qed.

Lemma div_positive x P :
  0 < P ->
  div x (Fin P) = match x with Fin a => Fin (a / P) | other => other end.
Proof.
  intros HP. apply Qgt_alt in HP. unfold div. rewrite HP.
  now destruct x.
Qed.

Lemma div_nonzero x y : ~ y == 0 -> div (Fin x) (Fin y) = Fin (x / y).
Proof.
  intros Hy. unfold div. destruct (y ?= 0) eqn:E; [|reflexivity..].
  now apply Qeq_alt in E.
Qed.

Lemma div_blend r m P P2 :
  0 < P -> P2 == 2 * P ->
  same (div (blend r m) (Fin P)) (add (div r (Fin P2)) (div m (Fin P2))).
Proof.
  intros HP HP2. assert (HP2' : 0 < P2) by (rewrite HP2; lra).
  unfold blend. rewrite (div_positive _ 2) by lra.
  rewrite !div_positive by assumption.
  destruct r, m; cbn; try exact I.
  rewrite HP2. field. lra.
Qed.

Lemma pow2_positive k : 0 < inject_Z (2 ^ Z.of_nat k).
Proof.
  replace 0 with (inject_Z 0) by reflexivity. rewrite <- Zlt_Qlt.
  apply Z.pow_pos_nonneg; lia.
Qed.

Lemma pow2_succ k :
  inject_Z (2 ^ Z.of_nat (S k)) == 2 * inject_Z (2 ^ Z.of_nat k).
Proof.
  rewrite Nat2Z.inj_succ, Z.pow_succ_r by lia. now rewrite inject_Z_mult.
Qed.

Lemma decayed_nil r : same r (decayed r []).
Proof.
  unfold decayed, pow2. cbn [length weighted_sum].
  rewrite div_positive by apply pow2_positive.
  destruct r; cbn [add same]; try exact I.
  change (inject_Z (2 ^ Z.of_nat 0)) with 1. field.
Qed.

Lemma blends_decayed r ds :
  same (foldl (fun r d => blend r (torch_mean d)) r ds)
       (decayed r (map torch_mean ds)).
Proof.
  revert r. induction ds as [|d ds IH]; intros r; cbn [foldl map].
  - apply decayed_nil.
  - eapply same_trans; [apply IH|]. unfold decayed. cbn [weighted_sum].
    rewrite !length_map. cbn [length].
    eapply same_trans; [|apply add_assoc_same].
    apply add_same; [|apply same_refl].
    unfold pow2. rewrite length_map. apply div_blend.
    + apply pow2_positive.
    + apply pow2_succ.
Qed.

End FloatLaws.

Lemma scores_map {record} (slot : record -> option (result (list Q)))
  (f : list Q -> list Q) (batch : list record) :
  scores (fun m => match slot m with
                   | Some (Ok d) => Some (Ok (f d))
                   | other => other
                   end) batch
  = (map f (fst (scores slot batch)), snd (scores slot batch)).
Proof.
  induction batch as [|m rest IH]; cbn [scores]; [reflexivity|].
  destruct (slot m) as [[d|e]|]; [|reflexivity|exact IH].
  rewrite IH. now destruct (scores slot rest).
Qed.

Section Rules.

Context {record : Type}.
Variable slot : record -> option (result (list Q)).
Variable pass : Q -> Q -> bool.
Variable update : list record -> M counters unit.

Hypothesis update_scores : forall batch s,
  update batch s =
    finish (snd (scores slot batch)) tt
      (counted pass s (fst (scores slot batch))).

Lemma counting_rule_holds : counting_rule update slot pass.
Proof.
  split.
  - intros m rest d s Hm.
    rewrite (update_cons_scored slot pass update update_scores m rest d s Hm).
    f_equal. unfold counted. cbn. f_equal; lia.
  - apply (update_returns slot pass update update_scores).
Qed.

Lemma skip_rule_holds : skip_rule update slot pass.
Proof.
  split; [|split].
  - intros pre m post s. apply (update_skip slot pass update update_scores).
  - intros batch s. apply (update_all_skipped slot pass update update_scores).
  - intros m0 m1 x s.
    apply (update_skip_then_one slot pass update update_scores).
Qed.

Lemma counter_invariants_hold thr :
  counter_invariants update slot {| threshold := thr; correct := 0; total := 0 |}.
Proof.
  split; [|split].
  - intros batches.
    apply (calls_invariant slot pass update update_scores). cbn. lia.
  - intros batch s. apply (update_monotone slot pass update update_scores).
  - intros batches.
    rewrite (calls_total slot pass update update_scores). cbn. lia.
Qed.

Lemma reduction_rule_holds compute thr :
  reduction_rule update compute {| threshold := thr; correct := 0; total := 0 |}.
Proof.
  intros batches1 batches2.
  pose proof (calls_app_reduce slot pass update update_scores
                thr batches1 batches2) as H.
  cbn zeta in H. rewrite H. split; reflexivity.
Qed.

End Rules.

Lemma percent_rule_holds : percent_rule (@DegreeErrorMeanAP_compute).
Proof.
  unfold DegreeErrorMeanAP_compute, bind, get, ret, of_Z.
  split; [|split].
  - intros s Ht. eexists. split; [reflexivity|].
    assert (Hq : ~ (inject_Z (total s) == 0)%Q).
    { intros H. apply Ht. unfold Qeq in H. cbn in H. lia. }
    rewrite div_nonzero by exact Hq. cbn [mul same]. now field.
  - intros s Ht. eexists. split; [reflexivity|]. rewrite Ht.
    intros q. cbn. destruct (inject_Z (correct s) ?= 0)%Q; discriminate.
  - intros s Ht Hc. now rewrite Ht, Hc.
Qed.

Lemma reads_only_get {S} : reads_only (@get S).
Proof. intros s. exists s. split; reflexivity. Qed.

Lemma reads_only_percent : reads_only (@DegreeErrorMeanAP_compute).
Proof. intros s. eexists. split; reflexivity. Qed.

(** ** The claims *)

Section Claims.

Context {tensor : Type}.
Variable torch_quat_distance : tensor -> tensor -> result (list Q).
Variable get_3d_ious : tensor -> tensor -> tensor -> tensor -> result (list Q).
Variable from_RTs_get_T_offset_errors : tensor -> tensor -> result (list Q).

Local Abbreviation match_record := (gmap string (tensor * tensor)).
Local Abbreviation quat := (quat_slot torch_quat_distance).
Local Abbreviation iou := (iou_slot get_3d_ious).
Local Abbreviation iou_percent := (iou_percent_slot get_3d_ious).
Local Abbreviation offset := (offset_slot from_RTs_get_T_offset_errors).
Local Abbreviation update_degree_ap :=
  (DegreeErrorMeanAP_update torch_quat_distance).
Local Abbreviation update_iou_ap := (Iou3dAP_update get_3d_ious).
Local Abbreviation update_offset_ap :=
  (OffsetAP_update from_RTs_get_T_offset_errors).

(** C3: in every threshold accumulator, [update] compares the scores of each
    non-skipped class slot with the threshold ([score < threshold] for the
    rotation and offset variants, [score > threshold] for the IoU variant),
    adds the number of passing scores to [correct] and the number of scores
    to [total].  With threshold 5 and a batch whose only non-skipped slot
    has the angular errors 3, 7 and 4.5, [correct] grows by 2, [total] by 3,
    and [compute] after this update of a fresh accumulator returns 200/3. *)
Theorem threshold_update_counts :
  (forall x thr : Q,
     (ltb x thr = true <-> (x < thr)%Q) /\ (gtb x thr = true <-> (thr < x)%Q)) /\
  counting_rule update_degree_ap quat ltb /\
  counting_rule update_iou_ap iou gtb /\
  counting_rule update_offset_ap offset ltb /\
  (forall (m0 m1 : match_record) q0 q1,
     m0 !! "quaternion" = None ->
     m1 !! "quaternion" = Some (q0, q1) ->
     torch_quat_distance q0 q1 = Ok [3; 7; 9 # 2]%Q ->
     (forall s, threshold s = 5%Q ->
        update_degree_ap [m0; m1] s =
          Returned tt {| threshold := threshold s;
                         correct := correct s + 2;
                         total := total s + 3 |}%Z) /\
     exists v,
       (let* _ := update_degree_ap [m0; m1] in DegreeErrorMeanAP_compute)
         (DegreeErrorMeanAP_init 5)
       = Returned v {| threshold := 5; correct := 2; total := 3 |} /\
       same v (Fin (200 # 3))).
Proof.
  split; [|split; [|split; [|split]]].
  - intros x thr. unfold ltb, gtb. rewrite Qlt_alt, Qgt_alt.
    destruct (x ?= thr)%Q; split; split; congruence.
  - apply counting_rule_holds, DegreeErrorMeanAP_update_scores.
  - apply counting_rule_holds, Iou3dAP_update_scores.
  - apply counting_rule_holds, OffsetAP_update_scores.
  - intros m0 m1 q0 q1 H0 H1 Hd.
    assert (Hs : scores quat [m0; m1] = ([[3; 7; 9 # 2]%Q], None)).
    { cbn [scores]. unfold quat_slot. now rewrite H0, H1, Hd. }
    split.
    + intros s Hthr. rewrite DegreeErrorMeanAP_update_scores, Hs.
      unfold counted, passing. cbn [fst snd finish threshold map foldr].
      rewrite Hthr. reflexivity.
    + eexists. unfold bind. rewrite DegreeErrorMeanAP_update_scores, Hs.
      split; reflexivity.
Qed.

(** C4: [compute] of a threshold accumulator returns [100 * correct / total]
    when [total] is not 0; when [total] is 0 it returns no number (NaN for
    the counters an accumulator can hold, where [correct] is then 0 too).
    [compute] of a running-mean accumulator returns the register. *)
Theorem compute_formula :
  percent_rule DegreeErrorMeanAP_compute /\
  percent_rule Iou3dAP_compute /\
  percent_rule OffsetAP_compute /\
  (forall r, DegreeError_compute r = Returned r r) /\
  (forall r, Iou3dAccuracy_compute r = Returned r r) /\
  (forall r, OffsetError_compute r = Returned r r).
Proof.
  repeat split; try apply percent_rule_holds.
Qed.

(** C5: from a fresh threshold accumulator, [0 <= correct <= total] holds
    after every sequence of [update] calls; no call decreases a counter;
    and [total] is the sum, over the calls, of the numbers of instances
    scored in the non-skipped slots of their batches (in a call that
    raises, the slots scored before the raise). *)
Theorem counters_invariant (thr : Q) :
  counter_invariants update_degree_ap quat (DegreeErrorMeanAP_init thr) /\
  counter_invariants update_iou_ap iou (Iou3dAP_init thr) /\
  counter_invariants update_offset_ap offset (OffsetAP_init thr).
Proof.
  split; [|split].
  - apply (counter_invariants_hold quat ltb), DegreeErrorMeanAP_update_scores.
  - apply (counter_invariants_hold iou gtb), Iou3dAP_update_scores.
  - apply (counter_invariants_hold offset ltb), OffsetAP_update_scores.
Qed.

(** C6: for two sequences of batches run through two fresh threshold
    accumulators, the field-wise sum of the two states is the state of one
    fresh accumulator run on the concatenation, and [compute] returns the
    same scalar on both. *)
Theorem reduction_sum_correct (thr : Q) :
  reduction_rule update_degree_ap DegreeErrorMeanAP_compute
    (DegreeErrorMeanAP_init thr) /\
  reduction_rule update_iou_ap Iou3dAP_compute (Iou3dAP_init thr) /\
  reduction_rule update_offset_ap OffsetAP_compute (OffsetAP_init thr).
Proof.
  split; [|split].
  - apply (reduction_rule_holds quat ltb), DegreeErrorMeanAP_update_scores.
  - apply (reduction_rule_holds iou gtb), Iou3dAP_update_scores.
  - apply (reduction_rule_holds offset ltb), OffsetAP_update_scores.
Qed.

(** C7: in every threshold accumulator, a class slot without the field the
    guard tests is skipped and changes neither counter, so a batch of
    skipped slots leaves the state as it was; a batch whose slot 0 is
    skipped and whose slot 1 has one instance that passes adds exactly 1 to
    [total] and 1 to [correct]. *)
Theorem threshold_update_skips :
  skip_rule update_degree_ap quat ltb /\
  skip_rule update_iou_ap iou gtb /\
  skip_rule update_offset_ap offset ltb /\
  (forall m : match_record,
     (m !! "quaternion" = None -> quat m = None) /\
     (m !! "RT" = None -> iou m = None) /\
     (m !! "RT" = None -> offset m = None)).
Proof.
  split; [|split; [|split]].
  - apply skip_rule_holds, DegreeErrorMeanAP_update_scores.
  - apply skip_rule_holds, Iou3dAP_update_scores.
  - apply skip_rule_holds, OffsetAP_update_scores.
  - intros m. unfold quat_slot, iou_slot, offset_slot.
    repeat split; intros ->; reflexivity.
Qed.

(** C8: [compute] of each of the six accumulators returns without changing
    the state, and two calls in a row return the same value. *)
Theorem compute_pure :
  reads_only DegreeErrorMeanAP_compute /\
  reads_only DegreeError_compute /\
  reads_only Iou3dAP_compute /\
  reads_only Iou3dAccuracy_compute /\
  reads_only OffsetAP_compute /\
  reads_only OffsetError_compute.
Proof.
  repeat split; first [apply reads_only_percent | apply reads_only_get].
Qed.

(** C9: [OffsetError.update] blends once per non-skipped class slot: when
    no slot raises, the register [r] becomes
    [r / 2^k + sum_i m_i / 2^(k-i+1)] for the means [m_1 .. m_k] of the
    non-skipped slots in batch order; a batch of skipped slots returns
    without an error and leaves the register as it was. *)
Theorem OffsetError_update_decayed :
  (forall (batch : list match_record) r,
     snd (scores offset batch) = None ->
     exists r',
       OffsetError_update from_RTs_get_T_offset_errors batch r
         = Returned tt r' /\
       same r' (decayed r (map torch_mean (fst (scores offset batch))))) /\
  (forall (batch : list match_record) r,
     all_skipped offset batch ->
     OffsetError_update from_RTs_get_T_offset_errors batch r = Returned tt r).
Proof.
  split.
  - intros batch r H. eexists. rewrite OffsetError_update_scores, H.
    split; [reflexivity|]. apply blends_decayed.
  - intros batch r H.
    rewrite OffsetError_update_scores, (scores_all_skipped _ _ H).
    reflexivity.
Qed.

(** C10: [Iou3dAP.update] and [Iou3dAccuracy.update] skip a slot exactly
    when it has no ['RT'] field; a slot with ['RT'] and without ['scales']
    is not skipped: when the slots before it neither raise, the call raises
    the key-lookup error of ['scales']. *)
Theorem iou_missing_scales_KeyError :
  (forall m : match_record,
     iou m = None <-> m !! "RT" = None) /\
  (forall (pre post : list match_record) m s,
     snd (scores iou pre) = None ->
     is_Some (m !! "RT") -> m !! "scales" = None ->
     update_iou_ap (pre ++ m :: post) s =
       Raised (KeyError "scales") (counted gtb s (fst (scores iou pre)))) /\
  (forall (pre post : list match_record) m r,
     snd (scores iou pre) = None ->
     is_Some (m !! "RT") -> m !! "scales" = None ->
     Iou3dAccuracy_update get_3d_ious (pre ++ m :: post) r =
       Raised (KeyError "scales") r).
Proof.
  assert (Hm : forall m : match_record,
             is_Some (m !! "RT") -> m !! "scales" = None ->
             iou m = Some (Err (KeyError "scales"))).
  { intros m [[g p] HRT] Hsc. unfold iou_slot. now rewrite HRT, Hsc. }
  split; [|split].
  - intros m. unfold iou_slot.
    destruct (m !! "RT") as [[g p]|]; split; intros H;
      try discriminate; reflexivity.
  - intros pre post m s Hpre HRT Hsc.
    rewrite Iou3dAP_update_scores.
    now rewrite (scores_app_raise _ _ _ post _ Hpre (Hm m HRT Hsc)).
  - intros pre post m r Hpre HRT Hsc.
    rewrite Iou3dAccuracy_update_spec. unfold spec_running_mean_update.
    assert (Hpre' : snd (scores iou_percent pre) = None).
    { unfold iou_percent_slot. now rewrite scores_map. }
    assert (Hm' : iou_percent m = Some (Err (KeyError "scales"))).
    { unfold iou_percent_slot. now rewrite (Hm m HRT Hsc). }
    now rewrite (scores_app_raise _ _ _ post _ Hpre' Hm').
Qed.

End Claims.

(** ** The running-mean accumulators that concatenate *)

Section Concatenating.

Context {tensor : Type}.
Variable torch_quat_distance : tensor -> tensor -> result (list Q).
Variable get_3d_ious : tensor -> tensor -> tensor -> tensor -> result (list Q).

Local Abbreviation match_record := (gmap string (tensor * tensor)).
Local Abbreviation quat := (quat_slot torch_quat_distance).
Local Abbreviation iou := (iou_slot get_3d_ious).

(** One blend per call, with the mean of the concatenated scores. *)
Lemma DegreeError_update_blends_once (batch : list match_record) r :
  snd (scores quat batch) = None -> fst (scores quat batch) <> [] ->
  DegreeError_update torch_quat_distance batch r =
    Returned tt (blend r (torch_mean (concat (fst (scores quat batch))))).
Proof.
  intros He Hds. rewrite DegreeError_update_spec.
  unfold spec_running_mean_update. rewrite He.
  destruct (fst (scores quat batch)); [contradiction | reflexivity].
Qed.

Lemma Iou3dAccuracy_update_blends_once (batch : list match_record) r :
  snd (scores iou batch) = None -> fst (scores iou batch) <> [] ->
  Iou3dAccuracy_update get_3d_ious batch r =
    Returned tt
      (blend r (torch_mean
                  (concat (map (map (fun x => (x * 100)%Q))
                               (fst (scores iou batch)))))).
Proof.
  intros He Hds. rewrite Iou3dAccuracy_update_spec.
  unfold spec_running_mean_update, iou_percent_slot.
  rewrite scores_map. cbn [fst snd]. rewrite He.
  destruct (fst (scores iou batch)); [contradiction | reflexivity].
Qed.

(** A batch of skipped slots makes [torch.cat] raise. *)
Lemma DegreeError_update_all_skipped (batch : list match_record) r :
  all_skipped quat batch ->
  DegreeError_update torch_quat_distance batch r = Raised CatEmptyList r.
Proof.
  intros H. rewrite DegreeError_update_spec. unfold spec_running_mean_update.
  now rewrite (scores_all_skipped _ _ H).
Qed.

Lemma Iou3dAccuracy_update_all_skipped (batch : list match_record) r :
  all_skipped iou batch ->
  Iou3dAccuracy_update get_3d_ious batch r = Raised CatEmptyList r.
Proof.
  intros H. rewrite Iou3dAccuracy_update_spec.
  unfold spec_running_mean_update, iou_percent_slot. rewrite scores_map.
  now rewrite (scores_all_skipped _ _ H).
Qed.

(** The first update of a fresh register halves this round's mean. *)
Lemma first_blend (d : list Q) :
  d <> [] -> same (blend (of_Z 0) (torch_mean d)) (Fin (Qsum d / inject_Z (shape0 d) / 2)).
Proof.
  intros Hd. unfold blend, torch_mean, of_Z.
  assert (H : (0 < inject_Z (shape0 d))%Q).
  { replace 0%Q with (inject_Z 0) by reflexivity. rewrite <- Zlt_Qlt.
    unfold shape0. destruct d; [contradiction | cbn; lia]. }
  rewrite (div_positive _ _ H). cbn [add]. rewrite div_positive by reflexivity.
  cbn [same]. field. intros E. rewrite E in H. now apply Qlt_irrefl in H.
Qed.

End Concatenating.

(** The blends of section 8 of the specification: a first round of mean 10
    leaves 5, a second round of mean 20 leaves 12.5. *)
Example DegreeError_two_rounds :
  leaves (DegreeError_update ex_quat_distance [ex_quat [10]%Q]
            DegreeError_init) (Fin 5) /\
  leaves ((let* _ := DegreeError_update ex_quat_distance [ex_quat [10]%Q] in
           DegreeError_update ex_quat_distance [ex_quat [20]%Q])
            DegreeError_init) (Fin (25 # 2)).
Proof. split; vm_compute; reflexivity. Qed.

(** ** Where [OffsetError] departs from its siblings *)

(** C1, at a batch of two non-skipped slots with the offsets [10] and [20]:
    the flat sequence of the batch has mean 15, and one blend of the fresh
    register gives 7.5, which is what [DegreeError.update] leaves on the
    same scores; [OffsetError.update] blends once per slot and leaves
    12.5. *)
Theorem OffsetError_blends_per_slot :
  let batch := [ex_RT [10]%Q; ex_RT [20]%Q] in
  leaves (OffsetError_update ex_offset_errors batch OffsetError_init)
    (Fin (25 # 2)) /\
  leaves (spec_running_mean_update (offset_slot ex_offset_errors) batch
            OffsetError_init) (Fin (15 # 2)) /\
  leaves (DegreeError_update ex_quat_distance
            [ex_quat [10]%Q; ex_quat [20]%Q] DegreeError_init)
    (Fin (15 # 2)) /\
  ~ same
      (state_after
         (OffsetError_update ex_offset_errors batch OffsetError_init))
      (state_after
         (spec_running_mean_update (offset_slot ex_offset_errors) batch
            OffsetError_init)).
Proof.
  repeat split; try (vm_compute; reflexivity).
  intros H. vm_compute in H. discriminate.
Qed.

(** C2, at a batch of two slots without any field: [DegreeError.update]
    and [Iou3dAccuracy.update] raise, [OffsetError.update] returns and
    leaves the register as it was. *)
Theorem OffsetError_all_skipped_returns :
  let batch := [ex_empty; ex_empty] in
  DegreeError_update ex_quat_distance batch DegreeError_init
    = Raised CatEmptyList DegreeError_init /\
  Iou3dAccuracy_update ex_3d_ious batch Iou3dAccuracy_init
    = Raised CatEmptyList Iou3dAccuracy_init /\
  OffsetError_update ex_offset_errors batch OffsetError_init
    = Returned tt OffsetError_init /\
  OffsetError_update ex_offset_errors [] OffsetError_init
    = Returned tt OffsetError_init.
Proof. repeat split; vm_compute; reflexivity. Qed.

(** ** The claims at concrete batches *)

Lemma threshold_update_counts_witness :
  DegreeErrorMeanAP_update ex_quat_distance
    [ex_empty; ex_quat [3; 7; 9 # 2]%Q] (DegreeErrorMeanAP_init 5)
  = Returned tt {| threshold := 5; correct := 0 + 2; total := 0 + 3 |}.
Proof.
  destruct (threshold_update_counts ex_quat_distance ex_3d_ious
              ex_offset_errors) as (_ & _ & _ & _ & H).
  destruct (H ex_empty (ex_quat [3; 7; 9 # 2]%Q) [0; 0; 0]%Q [3; 7; 9 # 2]%Q)
    as [H1 _]; [vm_compute; reflexivity ..|].
  apply (H1 (DegreeErrorMeanAP_init 5)). reflexivity.
Defined.

Lemma compute_formula_witness :
  exists v,
    DegreeErrorMeanAP_compute {| threshold := 5; correct := 2; total := 3 |}
      = Returned v {| threshold := 5; correct := 2; total := 3 |} /\
    same v (Fin (100 * inject_Z 2 / inject_Z 3)).
Proof.
  destruct compute_formula as [[H _] _].
  apply (H {| threshold := 5; correct := 2; total := 3 |}). cbn. lia.
Defined.

Lemma threshold_update_skips_witness :
  DegreeErrorMeanAP_update ex_quat_distance [ex_empty; ex_quat [3]%Q]
    (DegreeErrorMeanAP_init 5)
  = Returned tt {| threshold := 5; correct := 0 + 1; total := 0 + 1 |}.
Proof.
  destruct (threshold_update_skips ex_quat_distance ex_3d_ious
              ex_offset_errors) as [(_ & _ & H) _].
  apply (H ex_empty (ex_quat [3]%Q) 3%Q (DegreeErrorMeanAP_init 5));
    vm_compute; reflexivity.
Defined.

Lemma OffsetError_update_decayed_witness :
  exists r',
    OffsetError_update ex_offset_errors [ex_RT [10]%Q; ex_RT [20]%Q]
      OffsetError_init = Returned tt r' /\
    same r'
      (decayed OffsetError_init
         (map torch_mean
            (fst (scores (offset_slot ex_offset_errors)
                    [ex_RT [10]%Q; ex_RT [20]%Q])))).
Proof.
  destruct (OffsetError_update_decayed ex_offset_errors) as [H _].
  apply (H [ex_RT [10]%Q; ex_RT [20]%Q] OffsetError_init).
  vm_compute; reflexivity.
Defined.

Lemma iou_missing_scales_KeyError_witness :
  Iou3dAP_update ex_3d_ious
    ([ex_RT_scales [1; 2]%Q [2; 2]%Q] ++ ex_RT [1]%Q :: [ex_empty])
    (Iou3dAP_init (1 # 4))
  = Raised (KeyError "scales")
      (counted gtb (Iou3dAP_init (1 # 4))
         (fst (scores (iou_slot ex_3d_ious)
                 [ex_RT_scales [1; 2]%Q [2; 2]%Q]))).
Proof.
  destruct (iou_missing_scales_KeyError ex_3d_ious) as (_ & H & _).
  apply H.
  - vm_compute; reflexivity.
  - exists ([0]%Q, [1]%Q). vm_compute; reflexivity.
  - vm_compute; reflexivity.
Defined.

(** * Further properties *)

Lemma for_each_app {S X A} (body : X -> A -> M S A) xs ys acc s :
  for_each (xs ++ ys) body acc s =
    (let* acc' := for_each xs body acc in for_each ys body acc') s.
Proof.
  revert acc s. induction xs as [|x xs IH]; intros acc s; [reflexivity|].
  cbn [app for_each]. unfold bind in *.
  destruct (body x acc s) as [a s'|e s']; [|reflexivity].
  apply IH.
Qed.

Lemma for_each_unit_app {S X} (body : X -> unit -> M S unit) xs ys s :
  for_each (xs ++ ys) body tt s =
    (let* _ := for_each xs body tt in for_each ys body tt) s.
Proof.
  rewrite for_each_app. unfold bind.
  destruct (for_each xs body tt s) as [[] s'|e s']; reflexivity.
Qed.

Lemma sum_perm {A} (f : A -> Z) (l l' : list A) :
  l ≡ₚ l' -> foldr Z.add 0%Z (map f l) = foldr Z.add 0%Z (map f l').
Proof.
  induction 1 as [|x l l' _ IH|x y l|l l' l'' _ IH1 _ IH2]; cbn; lia.
Qed.

Lemma counted_perm pass s ds ds' :
  ds ≡ₚ ds' -> counted pass s ds = counted pass s ds'.
Proof.
  intros H. unfold counted.
  now rewrite (sum_perm _ _ _ H), (sum_perm shape0 _ _ H).
Qed.

Section Slots.

Context {record : Type}.
Variable slot : record -> option (result (list Q)).

Lemma scores_perm batch batch' :
  batch ≡ₚ batch' -> snd (scores slot batch) = None ->
  snd (scores slot batch') = None /\
  fst (scores slot batch) ≡ₚ fst (scores slot batch').
Proof.
  induction 1 as [|x l l' _ IH|x y l|l l' l'' _ IH1 _ IH2]; intros Hs.
  - auto.
  - cbn [scores] in *. destruct (slot x) as [[d|e]|].
    + destruct (scores slot l) as [ds e], (scores slot l') as [ds' e'].
      cbn [fst snd] in *. destruct (IH Hs) as [-> Hp].
      split; [reflexivity | now constructor].
    + discriminate.
    + auto.
  - cbn [scores] in *.
    destruct (slot x) as [[dx|ex]|], (slot y) as [[dy|ey]|];
      destruct (scores slot l) as [ds e]; cbn [fst snd] in *;
      try discriminate; split; try assumption; try reflexivity.
    apply perm_swap.
  - destruct (IH1 Hs) as [Hs' Hp]. destruct (IH2 Hs') as [Hs'' Hp'].
    split; [assumption | now transitivity (fst (scores slot l'))].
Qed.

End Slots.

Lemma torch_sum_int_cons (b : bool) (t : list bool) :
  torch_sum_int (b :: t) = ((if b then 1 else 0) + torch_sum_int t)%Z.
Proof.
  unfold torch_sum_int. rewrite filter_cons.
  destruct b; cbn [length].
  - rewrite decide_True by reflexivity. cbn [length]. lia.
  - rewrite decide_False by discriminate. lia.
Qed.

Lemma passing_cons pass thr x d :
  passing pass thr (x :: d) =
    ((if pass x thr then 1 else 0) + passing pass thr d)%Z.
Proof. unfold passing. cbn [map]. apply torch_sum_int_cons. Qed.

Lemma passing_le pass pass' thr thr' d :
  (forall x, pass x thr = true -> pass' x thr' = true) ->
  (passing pass thr d <= passing pass' thr' d)%Z.
Proof.
  intros H. induction d as [|x d IH]; [reflexivity|].
  rewrite !passing_cons. specialize (H x).
  destruct (pass x thr), (pass' x thr');
    first [lia | discriminate (H eq_refl)].
Qed.

Lemma sum_passing_le pass pass' thr thr' ds :
  (forall x, pass x thr = true -> pass' x thr' = true) ->
  (foldr Z.add 0 (map (passing pass thr) ds)
     <= foldr Z.add 0 (map (passing pass' thr') ds))%Z.
Proof.
  intros H. induction ds as [|d ds IH]; cbn; [lia|].
  pose proof (passing_le pass pass' thr thr' d H). lia.
Qed.

Lemma ltb_le x thr thr' : (thr <= thr')%Q -> ltb x thr = true -> ltb x thr' = true.
Proof.
  unfold ltb. intros Hle H.
  destruct (x ?= thr)%Q eqn:E; try discriminate.
  assert (Hx : (x < thr)%Q) by (apply (proj2 (Qlt_alt _ _)); exact E).
  assert (E' : (x ?= thr')%Q = Lt) by (apply (proj1 (Qlt_alt _ _)); lra).
  now rewrite E'.
Qed.

Lemma gtb_le x thr thr' : (thr <= thr')%Q -> gtb x thr' = true -> gtb x thr = true.
Proof.
  unfold gtb. intros Hle H.
  destruct (x ?= thr')%Q eqn:E; try discriminate.
  assert (Hx : (thr' < x)%Q) by (apply (proj2 (Qgt_alt _ _)); exact E).
  assert (E' : (x ?= thr)%Q = Gt) by (apply (proj1 (Qgt_alt _ _)); lra).
  now rewrite E'.
Qed.

Lemma percent_bounds (c t : Z) :
  (0 <= c <= t)%Z -> t <> 0%Z ->
  (0 <= inject_Z c / inject_Z t * 100 <= 100)%Q.
Proof.
  intros Hc Ht.
  assert (H0 : (0 < inject_Z t)%Q).
  { replace 0%Q with (inject_Z 0) by reflexivity. rewrite <- Zlt_Qlt. lia. }
  assert (Hc0 : (0 <= inject_Z c)%Q).
  { replace 0%Q with (inject_Z 0) by reflexivity. rewrite <- Zle_Qle. lia. }
  assert (Hct : (inject_Z c <= inject_Z t)%Q) by (rewrite <- Zle_Qle; lia).
  assert (Hl : (0 <= inject_Z c / inject_Z t)%Q).
  { apply Qle_shift_div_l; [assumption | lra]. }
  assert (Hu : (inject_Z c / inject_Z t <= 1)%Q).
  { apply Qle_shift_div_r; [assumption | lra]. }
  set (x := (inject_Z c / inject_Z t)%Q) in *. lra.
Qed.

Section CountingMore.

Context {record : Type}.
Variable slot : record -> option (result (list Q)).
Variable pass : Q -> Q -> bool.
Variable update : list record -> M counters unit.

Hypothesis update_scores : forall batch s,
  update batch s =
    finish (snd (scores slot batch)) tt
      (counted pass s (fst (scores slot batch))).

Lemma order_independent_holds : order_independent update slot.
Proof.
  intros batch batch' s Hp Hs.
  destruct (scores_perm slot batch batch' Hp Hs) as [Hs' Hds].
  now rewrite !update_scores, Hs, Hs', (counted_perm pass s _ _ Hds).
Qed.

Lemma raises_at_counting : raises_at update slot (counted pass).
Proof.
  intros pre m post s e Hpre Hm.
  now rewrite update_scores, (scores_app_raise slot pre m post e Hpre Hm).
Qed.

Lemma percent_range_holds thr :
  percent_range update DegreeErrorMeanAP_compute
    {| threshold := thr; correct := 0; total := 0 |}.
Proof.
  intros batches s.
  assert (Hinv : (0 <= correct s <= total s)%Z).
  { apply (calls_invariant slot pass update update_scores). cbn. lia. }
  destruct (Z.eq_dec (total s) 0%Z) as [Ht|Ht].
  - left. split; [assumption|].
    unfold DegreeErrorMeanAP_compute, bind, get, ret.
    replace (correct s) with 0%Z by lia. now rewrite Ht.
  - right. split; [assumption|].
    exists (inject_Z (correct s) / inject_Z (total s) * 100)%Q. split.
    + unfold DegreeErrorMeanAP_compute, bind, get, ret, of_Z.
      rewrite div_nonzero; [reflexivity|].
      intros H. apply Ht. unfold Qeq in H. cbn in H. lia.
    + now apply percent_bounds.
Qed.

Lemma calls_threshold_le thr thr' batches :
  (forall x, pass x thr = true -> pass x thr' = true) ->
  let s := calls update batches {| threshold := thr; correct := 0; total := 0 |} in
  let s' := calls update batches {| threshold := thr'; correct := 0; total := 0 |} in
  total s = total s' /\ (correct s <= correct s')%Z.
Proof.
  intros H s s'. subst s s'.
  rewrite !(calls_counted slot pass update update_scores). cbn.
  split; [reflexivity|].
  pose proof (sum_passing_le pass pass thr thr' (all_scores slot batches) H).
  lia.
Qed.

End CountingMore.

(** ** Float scalars: NaN and bounds *)

Lemma add_NaN_r a : add a NaN = NaN.
Proof. now destruct a. Qed.

Lemma blend_NaN_l v : blend NaN v = NaN.
Proof. reflexivity. Qed.

Lemma blend_NaN_r r : blend r NaN = NaN.
Proof. unfold blend. now rewrite add_NaN_r. Qed.

Lemma blends_NaN ds : blends NaN ds = NaN.
Proof. induction ds as [|d ds IH]; [reflexivity | exact IH]. Qed.

Lemma torch_mean_nil : torch_mean [] = NaN.
Proof. reflexivity. Qed.

Lemma blends_empty_slot r ds : [] ∈ ds -> blends r ds = NaN.
Proof.
  revert r. induction ds as [|d ds IH]; intros r Hin.
  - now apply not_elem_of_nil in Hin.
  - apply elem_of_cons in Hin as [<-|Hin].
    + unfold blends. cbn [foldl]. rewrite torch_mean_nil, blend_NaN_r.
      apply blends_NaN.
    + apply (IH _ Hin).
Qed.







(** ** Sequences of calls on the concatenating accumulators *)


Lemma calls_blends {B} (update : B -> M float unit)
  (round : B -> list Q) (batches : list B) r :
  Forall (fun b => forall r, update b r = Returned tt (blend r (torch_mean (round b))))
    batches ->
  calls update batches r = blends r (map round batches).
Proof.
  intros H. revert r. unfold calls, blends.
  induction H as [|b bs Hb _ IH]; intros r; cbn [foldl map]; [reflexivity|].
  now rewrite Hb, IH.
Qed.

Lemma spec_update_nan_persists {record}
  (slot : record -> option (result (list Q))) :
  nan_persists (spec_running_mean_update slot).
Proof.
  intros batch. unfold spec_running_mean_update.
  destruct (snd (scores slot batch)); [reflexivity|].
  destruct (fst (scores slot batch)); reflexivity.
Qed.





Section Extras.

Context {tensor : Type}.
Variable torch_quat_distance : tensor -> tensor -> result (list Q).
Variable get_3d_ious : tensor -> tensor -> tensor -> tensor -> result (list Q).
Variable from_RTs_get_T_offset_errors : tensor -> tensor -> result (list Q).

Local Abbreviation match_record := (gmap string (tensor * tensor)).
Local Abbreviation quat := (quat_slot torch_quat_distance).
Local Abbreviation iou := (iou_slot get_3d_ious).
Local Abbreviation iou_percent := (iou_percent_slot get_3d_ious).
Local Abbreviation offset := (offset_slot from_RTs_get_T_offset_errors).
Local Abbreviation update_degree_ap :=
  (DegreeErrorMeanAP_update torch_quat_distance).
Local Abbreviation update_iou_ap := (Iou3dAP_update get_3d_ious).
Local Abbreviation update_offset_ap :=
  (OffsetAP_update from_RTs_get_T_offset_errors).
Local Abbreviation update_degree := (DegreeError_update torch_quat_distance).
Local Abbreviation update_accuracy := (Iou3dAccuracy_update get_3d_ious).
Local Abbreviation update_offset :=
  (OffsetError_update from_RTs_get_T_offset_errors).
Local Abbreviation percent := (map (map (fun x => (x * 100)%Q))).


(** X1: [DegreeError.update] and [Iou3dAccuracy.update], on a batch with a
    non-skipped slot and no slot that raises, blend the register once with
    the mean of the concatenated scores of the batch (the IoU scores
    multiplied by 100). *)
Theorem concatenating_update_blends_once :
  (forall (batch : list match_record) r,
     snd (scores quat batch) = None -> fst (scores quat batch) <> [] ->
     update_degree batch r =
       Returned tt (blend r (torch_mean (concat (fst (scores quat batch)))))) /\
  (forall (batch : list match_record) r,
     snd (scores iou batch) = None -> fst (scores iou batch) <> [] ->
     update_accuracy batch r =
       Returned tt
         (blend r (torch_mean (concat (percent (fst (scores iou batch))))))).
Proof.
  split.
  - apply DegreeError_update_blends_once.
  - apply Iou3dAccuracy_update_blends_once.
Qed.

(** X2: on a batch whose slots are all skipped (the empty batch too),
    [DegreeError.update] and [Iou3dAccuracy.update] raise the error of
    [torch.cat] on an empty list and leave the register as it was. *)
Theorem concatenating_update_all_skipped :
  (forall (batch : list match_record) r,
     all_skipped quat batch -> update_degree batch r = Raised CatEmptyList r) /\
  (forall (batch : list match_record) r,
     all_skipped iou batch -> update_accuracy batch r = Raised CatEmptyList r).
Proof.
  split.
  - apply DegreeError_update_all_skipped.
  - apply Iou3dAccuracy_update_all_skipped.
Qed.

Lemma spec_update_raise_keeps {record}
  (slot : record -> option (result (list Q))) :
  raise_keeps_state (spec_running_mean_update slot).
Proof.
  intros batch s. unfold spec_running_mean_update.
  destruct (snd (scores slot batch)) as [e0|]; [reflexivity|].
  destruct (fst (scores slot batch)); [reflexivity | discriminate].
Qed.

(** X3: a call of [DegreeError.update] or [Iou3dAccuracy.update] that
    raises, whatever the exception, has not changed the register. *)
Theorem concatenating_update_raise_keeps_register :
  raise_keeps_state update_degree /\ raise_keeps_state update_accuracy.
Proof.
  split; intros batch s.
  - rewrite DegreeError_update_spec. apply spec_update_raise_keeps.
  - rewrite Iou3dAccuracy_update_spec. apply spec_update_raise_keeps.
Qed.

Lemma spec_update_raises_at {record}
  (slot : record -> option (result (list Q))) :
  raises_at (spec_running_mean_update slot) slot (fun r _ => r).
Proof.
  intros pre m post s e Hpre Hm. unfold spec_running_mean_update.
  now rewrite (scores_app_raise slot pre m post e Hpre Hm).
Qed.

(** X4: in each of the six accumulators, the first slot whose scoring
    raises ends [update] with that exception, whatever the slots after it
    hold.  The threshold accumulators keep the counts of the slots before
    it, [OffsetError] keeps their blends, and [DegreeError] and
    [Iou3dAccuracy] keep the register they started with. *)
Theorem scoring_exception_propagates :
  raises_at update_degree_ap quat (counted ltb) /\
  raises_at update_iou_ap iou (counted gtb) /\
  raises_at update_offset_ap offset (counted ltb) /\
  raises_at update_offset offset blends /\
  raises_at update_degree quat (fun r _ => r) /\
  raises_at update_accuracy iou_percent (fun r _ => r).
Proof.
  repeat split.
  - apply raises_at_counting, DegreeErrorMeanAP_update_scores.
  - apply raises_at_counting, Iou3dAP_update_scores.
  - apply raises_at_counting, OffsetAP_update_scores.
  - intros pre m post s e Hpre Hm.
    now rewrite OffsetError_update_scores,
      (scores_app_raise offset pre m post e Hpre Hm).
  - intros pre m post s e Hpre Hm. rewrite DegreeError_update_spec.
    now apply spec_update_raises_at.
  - intros pre m post s e Hpre Hm. rewrite Iou3dAccuracy_update_spec.
    now apply spec_update_raises_at.
Qed.

(** X5: the three threshold accumulators and [OffsetError] work slot by
    slot: one [update] on a batch is the same as one [update] on a first
    part of it followed by one on the rest, also when a slot raises. *)
Theorem per_slot_update_splits :
  splits update_degree_ap /\ splits update_iou_ap /\
  splits update_offset_ap /\ splits update_offset.
Proof.
  repeat split; intros batch1 batch2 s; apply for_each_unit_app.
Qed.

(** X6: for the three threshold accumulators, the order of the class slots
    in a batch that scores without raising does not change the counters
    the call leaves. *)
Theorem threshold_update_order_independent :
  order_independent update_degree_ap quat /\
  order_independent update_iou_ap iou /\
  order_independent update_offset_ap offset.
Proof.
  repeat split.
  - apply (order_independent_holds quat ltb), DegreeErrorMeanAP_update_scores.
  - apply (order_independent_holds iou gtb), Iou3dAP_update_scores.
  - apply (order_independent_holds offset ltb), OffsetAP_update_scores.
Qed.

(** X7: fed the same batches, two fresh accumulators with thresholds
    [thr <= thr'] end with the same [total]; the rotation and offset
    accumulators count at least as many correct instances with the larger
    threshold, the IoU accumulator at most as many. *)
Theorem correct_monotone_in_threshold (thr thr' : Q)
  (batches : list (list match_record)) :
  (thr <= thr')%Q ->
  (let s := calls update_degree_ap batches (DegreeErrorMeanAP_init thr) in
   let s' := calls update_degree_ap batches (DegreeErrorMeanAP_init thr') in
   total s = total s' /\ (correct s <= correct s')%Z) /\
  (let s := calls update_offset_ap batches (OffsetAP_init thr) in
   let s' := calls update_offset_ap batches (OffsetAP_init thr') in
   total s = total s' /\ (correct s <= correct s')%Z) /\
  (let s := calls update_iou_ap batches (Iou3dAP_init thr) in
   let s' := calls update_iou_ap batches (Iou3dAP_init thr') in
   total s = total s' /\ (correct s' <= correct s)%Z).
Proof.
  intros Hle. repeat split.
  - apply (calls_threshold_le quat ltb _ (DegreeErrorMeanAP_update_scores _)).
    intros x. now apply ltb_le.
  - apply (calls_threshold_le quat ltb _ (DegreeErrorMeanAP_update_scores _)).
    intros x. now apply ltb_le.
  - apply (calls_threshold_le offset ltb _ (OffsetAP_update_scores _)).
    intros x. now apply ltb_le.
  - apply (calls_threshold_le offset ltb _ (OffsetAP_update_scores _)).
    intros x. now apply ltb_le.
  - symmetry.
    apply (calls_threshold_le iou gtb _ (Iou3dAP_update_scores _) thr' thr).
    intros x. now apply gtb_le.
  - apply (calls_threshold_le iou gtb _ (Iou3dAP_update_scores _) thr' thr).
    intros x. now apply gtb_le.
Qed.

(** X8: after any sequence of [update] calls on a fresh threshold
    accumulator, [compute] returns NaN if no instance was scored, and
    otherwise a number between 0 and 100. *)
Theorem compute_percent_range (thr : Q) :
  percent_range update_degree_ap DegreeErrorMeanAP_compute
    (DegreeErrorMeanAP_init thr) /\
  percent_range update_iou_ap Iou3dAP_compute (Iou3dAP_init thr) /\
  percent_range update_offset_ap OffsetAP_compute (OffsetAP_init thr).
Proof.
  repeat split.
  - apply (percent_range_holds quat ltb), DegreeErrorMeanAP_update_scores.
  - apply (percent_range_holds iou gtb), Iou3dAP_update_scores.
  - apply (percent_range_holds offset ltb), OffsetAP_update_scores.
Qed.

(** X9: once the register of a running-mean accumulator is NaN, every
    later [update], returning or raising, leaves it NaN. *)
Theorem register_nan_persists :
  nan_persists update_degree /\ nan_persists update_accuracy /\
  nan_persists update_offset.
Proof.
  repeat split; intros batch.
  - rewrite DegreeError_update_spec. apply spec_update_nan_persists.
  - rewrite Iou3dAccuracy_update_spec. apply spec_update_nan_persists.
  - rewrite OffsetError_update_scores, state_after_finish. apply blends_NaN.
Qed.

(** X10: a non-skipped slot without instances turns the register into NaN:
    in [OffsetError], as soon as one scored slot has an empty score
    sequence; in [DegreeError] and [Iou3dAccuracy], when the batch has
    non-skipped slots and none of them has an instance. *)
Theorem zero_instances_give_nan :
  (forall (batch : list match_record) r,
     [] ∈ fst (scores offset batch) ->
     state_after (update_offset batch r) = NaN) /\
  (forall (batch : list match_record) r,
     snd (scores quat batch) = None -> fst (scores quat batch) <> [] ->
     concat (fst (scores quat batch)) = [] ->
     update_degree batch r = Returned tt NaN) /\
  (forall (batch : list match_record) r,
     snd (scores iou batch) = None -> fst (scores iou batch) <> [] ->
     concat (fst (scores iou batch)) = [] ->
     update_accuracy batch r = Returned tt NaN).
Proof.
  repeat split.
  - intros batch r Hin.
    rewrite OffsetError_update_scores, state_after_finish.
    now apply blends_empty_slot.
  - intros batch r Hs Hds Hc.
    rewrite (DegreeError_update_blends_once _ batch r Hs Hds), Hc.
    now rewrite torch_mean_nil, blend_NaN_r.
  - intros batch r Hs Hds Hc.
    rewrite (Iou3dAccuracy_update_blends_once _ batch r Hs Hds).
    rewrite <- concat_map, Hc. cbn [map].
    now rewrite torch_mean_nil, blend_NaN_r.
Qed.


(** X12: over a sequence of calls that each score at least one slot and do
    not raise, the register [r] of [DegreeError] and of [Iou3dAccuracy]
    becomes [r / 2^n + sum_i m_i / 2^(n-i+1)] for the round means
    [m_1 .. m_n] of the calls: each call halves the weight of all the
    earlier ones. *)
Theorem concatenating_calls_decayed :
  (forall (batches : list (list match_record)) r,
     Forall (fun b => snd (scores quat b) = None /\ fst (scores quat b) <> [])
       batches ->
     same (calls update_degree batches r)
       (decayed r
          (map (fun b => torch_mean (concat (fst (scores quat b)))) batches))) /\
  (forall (batches : list (list match_record)) r,
     Forall (fun b => snd (scores iou b) = None /\ fst (scores iou b) <> [])
       batches ->
     same (calls update_accuracy batches r)
       (decayed r
          (map (fun b =>
                  torch_mean (concat (percent (fst (scores iou b))))) batches))).
Proof.
  split; intros batches r H.
  - rewrite (calls_blends update_degree
               (fun b => concat (fst (scores quat b)))).
    + rewrite <- (map_map _ torch_mean). apply blends_decayed.
    + eapply Forall_impl; [exact H|]. cbn. intros b [Hs Hds] r0.
      now apply DegreeError_update_blends_once.
  - rewrite (calls_blends update_accuracy
               (fun b => concat (percent (fst (scores iou b))))).
    + rewrite <- (map_map _ torch_mean). apply blends_decayed.
    + eapply Forall_impl; [exact H|]. cbn. intros b [Hs Hds] r0.
      now apply Iou3dAccuracy_update_blends_once.
Qed.


(** X14: on a batch with exactly one non-skipped slot and no slot that
    raises, [OffsetError.update] does what the running-mean update of the
    specification does: the two differ only from the second scored slot
    on. *)
Theorem OffsetError_single_slot_agrees (batch : list match_record) d r :
  scores offset batch = ([d], None) ->
  update_offset batch r = spec_running_mean_update offset batch r.
Proof.
  intros H. rewrite OffsetError_update_scores.
  unfold spec_running_mean_update. rewrite H. cbn.
  unfold bind, get, put. now rewrite app_nil_r.
Qed.

End Extras.

(** ** The further properties at concrete batches *)

Lemma concatenating_update_blends_once_witness :
  DegreeError_update ex_quat_distance [ex_quat [10]%Q; ex_quat [20]%Q]
    DegreeError_init
  = Returned tt
      (blend DegreeError_init
         (torch_mean
            (concat (fst (scores (quat_slot ex_quat_distance)
                            [ex_quat [10]%Q; ex_quat [20]%Q]))))).
Proof.
  destruct (concatenating_update_blends_once ex_quat_distance ex_3d_ious)
    as [H _].
  apply H; [vm_compute; reflexivity | vm_compute; discriminate].
Defined.

Lemma concatenating_update_all_skipped_witness :
  DegreeError_update ex_quat_distance [ex_empty; ex_RT [1]%Q] DegreeError_init
  = Raised CatEmptyList DegreeError_init.
Proof.
  destruct (concatenating_update_all_skipped ex_quat_distance ex_3d_ious)
    as [H _].
  apply H. repeat constructor.
Defined.

Lemma concatenating_update_raise_keeps_register_witness :
  state_after
    (DegreeError_update ex_quat_distance [ex_quat [1]%Q; ex_mismatch] (Fin 7))
  = Fin 7.
Proof.
  destruct (concatenating_update_raise_keeps_register ex_quat_distance
              ex_3d_ious) as [H _].
  apply H. vm_compute; reflexivity.
Defined.

Lemma scoring_exception_propagates_witness :
  OffsetAP_update ex_offset_errors
    ([ex_RT [3; 7]%Q] ++ ex_mismatch :: [ex_RT [1]%Q]) (OffsetAP_init 5)
  = Raised ScorerRaised
      (counted ltb (OffsetAP_init 5)
         (fst (scores (offset_slot ex_offset_errors) [ex_RT [3; 7]%Q]))).
Proof.
  destruct (scoring_exception_propagates ex_quat_distance ex_3d_ious
              ex_offset_errors) as (_ & _ & H & _).
  apply H; vm_compute; reflexivity.
Defined.

Lemma threshold_update_order_independent_witness :
  DegreeErrorMeanAP_update ex_quat_distance [ex_quat [3]%Q; ex_quat [7]%Q]
    (DegreeErrorMeanAP_init 5)
  = DegreeErrorMeanAP_update ex_quat_distance [ex_quat [7]%Q; ex_quat [3]%Q]
      (DegreeErrorMeanAP_init 5).
Proof.
  destruct (threshold_update_order_independent ex_quat_distance ex_3d_ious
              ex_offset_errors) as [H _].
  apply H; [apply perm_swap | vm_compute; reflexivity].
Defined.

Lemma correct_monotone_in_threshold_witness :
  let s := calls (DegreeErrorMeanAP_update ex_quat_distance)
             [[ex_quat [3; 7]%Q]] (DegreeErrorMeanAP_init 5) in
  let s' := calls (DegreeErrorMeanAP_update ex_quat_distance)
              [[ex_quat [3; 7]%Q]] (DegreeErrorMeanAP_init 10) in
  total s = total s' /\ (correct s <= correct s')%Z.
Proof.
  apply (correct_monotone_in_threshold ex_quat_distance ex_3d_ious
           ex_offset_errors 5 10 [[ex_quat [3; 7]%Q]]).
  unfold Qle. simpl. lia.
Defined.

Lemma zero_instances_give_nan_witness :
  state_after
    (OffsetError_update ex_offset_errors [ex_RT [10]%Q; ex_RT []]
       OffsetError_init) = NaN.
Proof.
  destruct (zero_instances_give_nan ex_quat_distance ex_3d_ious
              ex_offset_errors) as [H _].
  apply H.
  replace (fst (scores (offset_slot ex_offset_errors)
                  [ex_RT [10]%Q; ex_RT []]))
    with [[10]%Q; []] by (vm_compute; reflexivity).
  right. left.
Defined.


Lemma concatenating_calls_decayed_witness :
  same
    (calls (DegreeError_update ex_quat_distance)
       [[ex_quat [10]%Q]; [ex_quat [20]%Q]] DegreeError_init)
    (decayed DegreeError_init
       (map (fun b =>
               torch_mean
                 (concat (fst (scores (quat_slot ex_quat_distance) b))))
          [[ex_quat [10]%Q]; [ex_quat [20]%Q]])).
Proof.
  destruct (concatenating_calls_decayed ex_quat_distance ex_3d_ious)
    as [H _].
  apply H.
  repeat constructor; first [vm_compute; reflexivity | vm_compute; discriminate].
Defined.


Lemma OffsetError_single_slot_agrees_witness :
  OffsetError_update ex_offset_errors [ex_empty; ex_RT [10; 20]%Q]
    OffsetError_init
  = spec_running_mean_update (offset_slot ex_offset_errors)
      [ex_empty; ex_RT [10; 20]%Q] OffsetError_init.
Proof.
  apply (OffsetError_single_slot_agrees ex_offset_errors
           [ex_empty; ex_RT [10; 20]%Q] [10; 20]%Q).
  vm_compute; reflexivity.
Defined.

(** * Properties of loss_function *)

Lemma dict_getitem_setitem_eq {V} (d : pydict V) key v :
  dict_getitem (dict_setitem d key v) key = Done v.
Proof.
  induction d as [|[k v0] d IH]; cbn.
  - now rewrite decide_True.
  - destruct (decide (k = key)) as [->|Hne]; cbn.
    + now rewrite decide_True.
    + now rewrite decide_False.
Qed.

Lemma dict_getitem_setitem_ne {V} (d : pydict V) key key' v :
  key <> key' ->
  dict_getitem (dict_setitem d key v) key' = dict_getitem d key'.
Proof.
  intros Hne. induction d as [|[k v0] d IH]; cbn.
  - now rewrite decide_False.
  - destruct (decide (k = key)) as [->|Hk]; cbn.
    + now rewrite !decide_False.
    + now rewrite IH.
Qed.

Lemma list_comprehension_Forall2 {X W} (f : X -> task_result W) xs ws :
  Forall2 (fun x w => f x = Done w) xs ws ->
  list_comprehension f xs = Done ws.
Proof.
  induction 1 as [|x w xs ws Hx _ IH]; cbn; [reflexivity|].
  now rewrite Hx, IH.
Qed.

Lemma list_comprehension_Done {X W} (f : X -> task_result W) xs ws :
  list_comprehension f xs = Done ws ->
  Forall2 (fun x w => f x = Done w) xs ws.
Proof.
  revert ws. induction xs as [|x xs IH]; intros ws; cbn.
  - intros [= <-]. constructor.
  - destruct (f x) as [w|e] eqn:Hx; cbn; [|discriminate].
    destruct (list_comprehension f xs) as [ws'|e]; cbn; [|discriminate].
    intros [= <-]. constructor; [assumption | now apply IH].
Qed.

Lemma list_comprehension_Failed {X W} (f : X -> task_result W) xs e :
  list_comprehension f xs = Failed e -> exists x, x ∈ xs /\ f x = Failed e.
Proof.
  induction xs as [|x xs IH]; cbn; [discriminate|].
  destruct (f x) as [w|e0] eqn:Hx; cbn.
  - destruct (list_comprehension f xs) as [ws'|e1]; cbn; [discriminate|].
    intros [= ->]. destruct (IH eq_refl) as (x' & Hin & Hx').
    exists x'. split; [now right | assumption].
  - intros [= ->]. exists x. split; [now left | assumption].
Qed.

Lemma dict_comprehension_keys {V W} (f : V -> task_result W) d r :
  dict_comprehension f d = Done r -> map fst r = map fst d.
Proof.
  unfold dict_comprehension. intros H. apply list_comprehension_Done in H.
  induction H as [|[k v] [k' w] d r Hx _ IH]; cbn; [reflexivity|].
  cbn in Hx. destruct (f v); cbn in Hx; [|discriminate].
  injection Hx as <- _. now rewrite IH.
Qed.

Lemma dict_comprehension_call {V W} (g : V -> option W) (d : pydict V) :
  Forall (fun kv => is_Some (g (snd kv))) d ->
  exists r, dict_comprehension (fun v => call (g v)) d = Done r.
Proof.
  unfold dict_comprehension.
  induction 1 as [|[k v] d [w Hw] _ [r IH]]; cbn.
  - now exists [].
  - cbn in Hw. rewrite Hw. cbn. rewrite IH. cbn. eauto.
Qed.

Lemma dict_comprehension_call_Done {V W} (g : V -> option W) (d : pydict V) r :
  dict_comprehension (fun v => call (g v)) d = Done r ->
  Forall (fun kv => is_Some (g (snd kv))) d.
Proof.
  unfold dict_comprehension. intros H. apply list_comprehension_Done in H.
  induction H as [|[k v] kw d r Hx _ IH]; constructor; [|exact IH].
  cbn in *. destruct (g v); [eauto | discriminate].
Qed.

Lemma dict_comprehension_call_Failed {V W} (g : V -> option W)
  (d : pydict V) e :
  dict_comprehension (fun v => call (g v)) d = Failed e -> e = CallableRaised.
Proof.
  unfold dict_comprehension. intros H.
  apply list_comprehension_Failed in H as ([k v] & _ & H).
  cbn in H. destruct (g v); cbn in H; congruence.
Qed.

Lemma dict_getitem_middle {V} (pre : pydict V) key v rest :
  key ∉ map fst pre -> dict_getitem (pre ++ (key, v) :: rest) key = Done v.
Proof.
  induction pre as [|[k v0] pre IH]; cbn; intros Hk.
  - now rewrite decide_True.
  - apply not_elem_of_cons in Hk as [Hne Hk].
    rewrite decide_False by congruence. now apply IH.
Qed.

Lemma mul_one x w : (w == 1)%Q -> same (mul x (Fin w)) x.
Proof.
  intros Hw.
  assert (Hc : (w ?= 0)%Q = Gt) by (apply (proj1 (Qgt_alt _ _)); lra).
  destruct x; cbn [mul same]; rewrite ?Hc; try exact I.
  rewrite Hw. ring.
Qed.

Lemma torch_sum_same xs ys :
  Forall2 same xs ys -> same (torch_sum xs) (torch_sum ys).
Proof.
  unfold torch_sum.
  induction 1 as [|x y xs ys Hxy _ IH]; cbn [foldr]; [apply same_refl|].
  now apply add_same.
Qed.

Section TaskProperties.

Context {tensor mvalue : Type}.

Local Abbreviation weighted_of losses crit :=
  (fun key =>
     let+ loss := dict_getitem losses key in
     let+ entry := dict_getitem crit key in
     Done (mul loss (Fin (weight entry)))).

Lemma weighted_losses_aux (ls : pydict float)
  (crit : pydict (criterion_entry tensor)) pre_l pre_c :
  map fst pre_l = map fst pre_c -> map fst ls = map fst crit ->
  NoDup (map fst (pre_c ++ crit)) ->
  Forall2 (fun key w => weighted_of (pre_l ++ ls) (pre_c ++ crit) key = Done w)
    (map fst ls) (weigh ls crit).
Proof.
  revert crit pre_l pre_c.
  induction ls as [|[k l] ls IH]; intros [|[k' c] crit] pre_l pre_c Hpre Hk Hnd;
    try discriminate; cbn [map weigh zip_with]; [constructor|].
  cbn in Hk. injection Hk as <- Hk. constructor.
  - assert (Hnot : k ∉ map fst pre_c).
    { rewrite map_app in Hnd. apply NoDup_app in Hnd as (_ & Hd & _).
      intros Hin. apply (Hd k Hin). cbn. now left. }
    rewrite dict_getitem_middle by (now rewrite Hpre). cbn.
    now rewrite dict_getitem_middle.
  - specialize (IH crit (pre_l ++ [(k, l)]) (pre_c ++ [(k, c)])).
    rewrite <- !app_assoc in IH. apply IH; [|assumption..].
    rewrite !map_app. cbn. now rewrite Hpre.
Qed.

Lemma weighted_losses_eval (ls : pydict float)
  (crit : pydict (criterion_entry tensor)) :
  map fst ls = map fst crit -> NoDup (map fst crit) ->
  list_comprehension (weighted_of ls crit) (map fst ls) = Done (weigh ls crit).
Proof.
  intros Hk Hnd. apply list_comprehension_Forall2.
  now apply (weighted_losses_aux ls crit [] []).
Qed.

(** What the call comes to once the criteria and the metrics are
    evaluated. *)
Lemma loss_function_eval (self : SegmentationTask tensor mvalue) pred gt ls ms :
  NoDup (map fst (criterion self)) ->
  dict_comprehension (fun v => call (F v pred gt)) (criterion self) = Done ls ->
  dict_comprehension (fun v => call (v pred gt)) (metrics self) = Done ms ->
  loss_function self pred gt =
    match criterion self with
    | [] => Failed StackEmptyList
    | _ =>
        Done (dict_setitem
                (dict_setitem ls "loss" (torch_sum (weigh ls (criterion self))))
                "total_loss" (torch_sum (map snd ls)), ms)
    end.
Proof.
  intros Hnd Hls Hms. unfold loss_function. rewrite Hls, Hms. cbn [task_bind].
  pose proof (dict_comprehension_keys _ _ _ Hls) as Hk.
  destruct ls as [|[k' l] ls].
  - destruct (criterion self); [reflexivity | discriminate].
  - change (torch_stack (map snd ((k', l) :: ls)))
      with (Done (map snd ((k', l) :: ls))).
    cbn [task_bind]. rewrite (weighted_losses_eval _ _ Hk Hnd).
    destruct (criterion self) as [|[k c] crit]; [discriminate|].
    reflexivity.
Qed.

Lemma loss_function_cases (self : SegmentationTask tensor mvalue) pred gt :
  NoDup (map fst (criterion self)) ->
  (exists e, loss_function self pred gt = Failed e /\ e = CallableRaised /\
     ~ (all_return F (criterion self) pred gt /\
        all_return (fun v => v) (metrics self) pred gt)) \/
  (loss_function self pred gt = Failed StackEmptyList /\ criterion self = [] /\
     all_return (fun v => v) (metrics self) pred gt) \/
  (exists ls ms,
     criterion self <> [] /\
     all_return F (criterion self) pred gt /\
     all_return (fun v => v) (metrics self) pred gt /\
     dict_comprehension (fun v => call (F v pred gt)) (criterion self)
       = Done ls /\
     dict_comprehension (fun v => call (v pred gt)) (metrics self) = Done ms /\
     loss_function self pred gt =
       Done (dict_setitem
               (dict_setitem ls "loss" (torch_sum (weigh ls (criterion self))))
               "total_loss" (torch_sum (map snd ls)), ms)).
Proof.
  intros Hnd.
  destruct (dict_comprehension (fun v => call (F v pred gt)) (criterion self))
    as [ls|e] eqn:Hls.
  - destruct (dict_comprehension (fun v => call (v pred gt)) (metrics self))
      as [ms|e] eqn:Hms.
    + pose proof (loss_function_eval self pred gt ls ms Hnd Hls Hms) as H.
      pose proof (dict_comprehension_call_Done _ _ _ Hls) as HF.
      pose proof (dict_comprehension_call_Done
                    (fun v : tensor -> tensor -> option mvalue => v pred gt)
                    _ _ Hms) as HM.
      destruct (criterion self) as [|kc crit] eqn:Hc.
      * right. left. auto.
      * right. right. exists ls, ms. repeat split; try assumption.
        discriminate.
    + left. exists e. unfold loss_function. rewrite Hls, Hms. cbn.
      split; [reflexivity|].
      split; [now apply dict_comprehension_call_Failed in Hms|].
      intros [_ HM].
      destruct (dict_comprehension_call
                  (fun v : tensor -> tensor -> option mvalue => v pred gt)
                  _ HM) as [r Hr].
      unfold all_return in *. congruence.
  - left. exists e. unfold loss_function. rewrite Hls. cbn.
    split; [reflexivity|].
    split; [now apply dict_comprehension_call_Failed in Hls|].
    intros [HF _].
    destruct (dict_comprehension_call (fun v => F v pred gt) _ HF) as [r Hr].
    congruence.
Qed.

(** X15: [loss_function] returns exactly when [self.criterion] is not empty
    and every criterion and every metric returns on [pred] and [gt].  When
    it fails, it is with the exception of a callable, or, for an empty
    [self.criterion] whose metrics all return, with the error of
    [torch.stack] on an empty list; its own dict lookups never fail. *)
Theorem loss_function_returns_iff (self : SegmentationTask tensor mvalue)
  pred gt :
  NoDup (map fst (criterion self)) ->
  ((exists out, loss_function self pred gt = Done out) <->
     criterion self <> [] /\
     all_return F (criterion self) pred gt /\
     all_return (fun v => v) (metrics self) pred gt) /\
  (forall e, loss_function self pred gt = Failed e ->
     e = CallableRaised \/ (e = StackEmptyList /\ criterion self = [])).
Proof.
  intros Hnd.
  destruct (loss_function_cases self pred gt Hnd)
    as [(e & He & -> & Hnot) | [(He & Hc & HM) | (ls & ms & Hc & HF & HM & _ & _ & H)]].
  - split.
    + split; [intros [out H]; congruence | intros (_ & HF & HM); tauto].
    + intros e. rewrite He. intros [= <-]. now left.
  - split.
    + split; [intros [out H]; congruence | intros (Hne & _); contradiction].
    + intros e. rewrite He. intros [= <-]. right. auto.
  - split.
    + split; [auto | eauto].
    + intros e. rewrite H. discriminate.
Qed.

(** X16: in the losses that [loss_function] returns, ['total_loss'] is the
    sum of the values of the criteria and ['loss'] the sum of these values
    times their weights, also when a criterion has one of these two names;
    every other criterion is there under its own name with its own value;
    the metrics come back under the names they have in [self.metrics], in
    the same order. *)
Theorem loss_function_result (self : SegmentationTask tensor mvalue)
  pred gt losses ms :
  NoDup (map fst (criterion self)) ->
  loss_function self pred gt = Done (losses, ms) ->
  exists ls,
    dict_comprehension (fun v => call (F v pred gt)) (criterion self)
      = Done ls /\
    map fst ls = map fst (criterion self) /\
    dict_getitem losses "total_loss" = Done (torch_sum (map snd ls)) /\
    dict_getitem losses "loss"
      = Done (torch_sum (weigh ls (criterion self))) /\
    (forall key, key <> "loss" -> key <> "total_loss" ->
       dict_getitem losses key = dict_getitem ls key) /\
    map fst ms = map fst (metrics self).
Proof.
  intros Hnd Hret.
  destruct (loss_function_cases self pred gt Hnd)
    as [(e & He & _) | [(He & _) | (ls & ms' & _ & _ & _ & Hls & Hms & H)]];
    try congruence.
  rewrite H in Hret. injection Hret as <- <-.
  exists ls. repeat split.
  - assumption.
  - now apply dict_comprehension_keys in Hls.
  - apply dict_getitem_setitem_eq.
  - rewrite dict_getitem_setitem_ne by discriminate.
    apply dict_getitem_setitem_eq.
  - intros key H1 H2. rewrite !dict_getitem_setitem_ne by congruence.
    reflexivity.
  - now apply dict_comprehension_keys in Hms.
Qed.

Lemma weigh_unit (ls : pydict float) (crit : pydict (criterion_entry tensor)) :
  map fst ls = map fst crit ->
  Forall (fun kc => (weight (snd kc) == 1)%Q) crit ->
  Forall2 same (weigh ls crit) (map snd ls).
Proof.
  revert crit. induction ls as [|[k l] ls IH]; intros [|[k' c] crit] Hk Hw;
    try discriminate; cbn [weigh zip_with map]; [constructor|].
  apply Forall_cons in Hw as [Hc Hw]. injection Hk as _ Hk.
  constructor; [now apply mul_one | now apply IH].
Qed.

(** X17: when every criterion has the weight 1, the ['loss'] and the
    ['total_loss'] that [loss_function] returns are the same value. *)
Theorem loss_function_unit_weights (self : SegmentationTask tensor mvalue)
  pred gt losses ms :
  NoDup (map fst (criterion self)) ->
  Forall (fun kc => (weight (snd kc) == 1)%Q) (criterion self) ->
  loss_function self pred gt = Done (losses, ms) ->
  exists loss total_loss,
    dict_getitem losses "loss" = Done loss /\
    dict_getitem losses "total_loss" = Done total_loss /\
    same loss total_loss.
Proof.
  intros Hnd Hw Hret.
  destruct (loss_function_cases self pred gt Hnd)
    as [(e & He & _) | [(He & _) | (ls & ms' & _ & _ & _ & Hls & Hms & H)]];
    try congruence.
  rewrite H in Hret. injection Hret as <- <-.
  do 2 eexists. split; [|split].
  - rewrite dict_getitem_setitem_ne by discriminate.
    apply dict_getitem_setitem_eq.
  - apply dict_getitem_setitem_eq.
  - apply torch_sum_same, weigh_unit; [|assumption].
    now apply dict_comprehension_keys in Hls.
Qed.

End TaskProperties.

(** ** [loss_function] at concrete tasks *)

Lemma loss_function_returns_iff_witness :
  exists out, loss_function ex_task tt tt = Done out.
Proof.
  destruct (loss_function_returns_iff ex_task tt tt) as [[_ H] _].
  - apply (bool_decide_unpack _). vm_compute. exact I.
  - apply H. split; [discriminate|].
    split; repeat constructor; eexists; reflexivity.
Defined.

Lemma loss_function_result_witness :
  exists losses ms ls,
    loss_function ex_task tt tt = Done (losses, ms) /\
    dict_getitem losses "total_loss" = Done (torch_sum (map snd ls)) /\
    dict_getitem losses "loss"
      = Done (torch_sum (weigh ls (criterion ex_task))) /\
    map fst ms = ["dice"].
Proof.
  destruct (loss_function ex_task tt tt) as [[losses ms]|e] eqn:E;
    [|vm_compute in E; discriminate].
  destruct (loss_function_result ex_task tt tt losses ms)
    as (ls & _ & _ & H1 & H2 & _ & H3).
  - apply (bool_decide_unpack _). vm_compute. exact I.
  - exact E.
  - exists losses, ms, ls. auto.
Defined.

Lemma loss_function_unit_weights_witness :
  exists losses ms loss total_loss,
    loss_function ex_task_unit tt tt = Done (losses, ms) /\
    dict_getitem losses "loss" = Done loss /\
    dict_getitem losses "total_loss" = Done total_loss /\
    same loss total_loss.
Proof.
  destruct (loss_function ex_task_unit tt tt) as [[losses ms]|e] eqn:E;
    [|vm_compute in E; discriminate].
  destruct (loss_function_unit_weights ex_task_unit tt tt losses ms)
    as (loss & total_loss & H1 & H2 & H3).
  - apply (bool_decide_unpack _). vm_compute. exact I.
  - repeat constructor.
  - exact E.
  - exists losses, ms, loss, total_loss. auto.
Defined.
